(** * HCLasso: the SPG solver for the Lasso problem on the unit hypercube

    A shallow embedding of [src/HCLasso.cpp].  For every column [w] of [W]
    the program minimises [a' G a - 2 w' a + lambda |a|_1] over the unit
    hypercube by a spectral projected gradient (SPG) iteration with a
    non-monotone backtracking line search, and sums the objective values
    it reached.

    Numbers are IEEE 754 binary64 values, embedded with the executable
    specification of the Standard Library ([SpecFloat], precision 53,
    exponent bound 1024): rounding to nearest even, signed zeros,
    infinities and NaN behave as they do for a C++ [double].  Vectors and
    column-major matrices are lists.  The two [while (1)] loops are
    functions with fuel that return [None] when the fuel runs out. *)

From Stdlib Require Import ZArith List Bool Lia.
From Stdlib Require Import Floats.SpecFloat.
Import ListNotations.

Set Implicit Arguments.

(** ** The arithmetic of [double] *)

Module D.

Definition prec : Z := 53.
Definition emax : Z := 1024.

Definition double : Type := spec_float.

Definition add : double -> double -> double := SFadd prec emax.
Definition mul : double -> double -> double := SFmul prec emax.
Definition sub : double -> double -> double := SFsub prec emax.
Definition div : double -> double -> double := SFdiv prec emax.
Definition opp : double -> double := SFopp.
Definition abs : double -> double := SFabs.

(** [ltb x y] is the C++ test [x < y]; a comparison with a NaN operand
    is false. *)
Definition ltb : double -> double -> bool := SFltb.
Definition leb : double -> double -> bool := SFleb.
Definition eqb : double -> double -> bool := SFeqb.

(** The binary64 value of an integer literal. *)
Definition of_Z (n : Z) : double := binary_normalize prec emax n 0 false.

(** [pow2 e] is the binary64 value of [2^e], for [-1074 <= e <= 1023]. *)
Definition pow2 (e : Z) : double := SFldexp prec emax (of_Z 1) e.

Definition zero : double := S754_zero false.
Definition one : double := of_Z 1.
Definition mone : double := opp one.
Definition two : double := of_Z 2.
Definition half : double := div one two.
Definition nan : double := S754_nan.
Definition pinf : double := S754_infinity false.
Definition ninf : double := S754_infinity true.

(** [std::numeric_limits<double>::max()] *)
Definition DBL_MAX : double := SFmax_float prec emax.

Definition is_nan (x : double) : bool :=
  match x with S754_nan => true | _ => false end.

(** [in01 x] is the test [0 <= x && x <= 1]. *)
Definition in01 (x : double) : bool := leb zero x && leb x one.

End D.

Import D.

Definition vec : Type := list double.

(** ** Constants of the program *)

Definition MEM_OLD_VALUES : nat := 10.

(** [OPT_TOL], the literal [1e-10], is the binary64 value nearest to
    [10^-10]: the correctly rounded quotient of [1] and [10^10]. *)
Definition OPT_TOL : double := div one (of_Z (10 ^ 10)).

(** [SUFF_DESC], the literal [1e-3]. *)
Definition SUFF_DESC : double := div one (of_Z 1000).

(** The upper guard [1e10] of the spectral step length. *)
Definition ALPHA_MAX : double := of_Z (10 ^ 10).

Definition itermax : nat := 500.

(** [dabs] *)
Definition dabs (x : double) : double :=
  if ltb x zero then opp x else x.

(** ** The BLAS routines

    The program calls [dcopy], [daxpy], [ddot], [dgemv] and [dasum]
    through [dynblas.h], which is not part of the source.  All calls
    use unit strides.  A routine that writes a buffer of [n] entries
    returns the new contents of these [n] entries. *)

(** Modelled from the spec: the vector copy of the linear-algebra
    provider, [dcopy]: the first [n] entries of [x]. *)
Definition dcopy (n : nat) (x : vec) : vec := firstn n x.

(** Modelled from the spec: the scaled accumulate of the linear-algebra
    provider, [daxpy]: [y := a * x + y] on the first [n] entries.  As in
    the reference BLAS the routine returns at once, leaving [y] as it
    is, when [n] is zero or [a] compares equal to zero. *)
Definition daxpy (n : nat) (a : double) (x y : vec) : vec :=
  if (Nat.eqb n 0 || eqb a zero)%bool then y
  else map (fun p => add (snd p) (mul a (fst p)))
           (combine (firstn n x) (firstn n y)).

(** Modelled from the spec: the dot product of the linear-algebra
    provider, [ddot]: the products are accumulated from the left,
    starting from zero. *)
Definition ddot (n : nat) (x y : vec) : double :=
  fold_left (fun acc p => add acc (mul (fst p) (snd p)))
            (combine (firstn n x) (firstn n y)) zero.

(** Modelled from the spec: the sum of absolute values of the
    linear-algebra provider, [dasum]. *)
Definition dasum (n : nat) (x : vec) : double :=
  fold_left (fun acc xi => add acc (abs xi)) (firstn n x) zero.

(** One column of the matrix-vector product: [y := y + temp * col]. *)
Definition axpy_col (temp : double) (col y : vec) : vec :=
  map (fun p => add (snd p) (mul temp (fst p))) (combine col y).

Fixpoint dgemv_cols (k : nat) (alpha : double) (A x y : vec) : vec :=
  match x with
  | [] => y
  | xj :: x' =>
      dgemv_cols k alpha (skipn k A) x'
                 (axpy_col (mul alpha xj) (firstn k A) y)
  end.

(** Modelled from the spec: the matrix-vector product of the
    linear-algebra provider, [dgemv] with the transposition flag ["N"]
    on a [k] by [k] column-major matrix of leading dimension [k]:
    [y := alpha * A * x + beta * y].  When [beta] is zero [y] is set to
    zero without being read, and the columns are then accumulated in
    order, as in the reference BLAS.  The test of the arguments is not
    modelled: the routine requires a leading dimension of at least
    [max 1 k], so the definition stands for [k >= 1] only, the
    precondition of the program. *)
Definition dgemv (k : nat) (alpha : double) (A x : vec) (beta : double)
    (y : vec) : vec :=
  let y0 := if eqb beta zero then repeat zero k
            else map (mul beta) (firstn k y) in
  if eqb alpha zero then y0
  else dgemv_cols k alpha A (firstn k x) y0.

(** ** The routines of the solver *)

(** [SetInput]: [beta = 2 * w - lambda] and [Hess = 2 * G], the latter
    as [Hess = G; Hess = 1 * G + Hess]. *)
Definition SetInput (G w : vec) (lambda : double) (k : nat) : vec * vec :=
  let beta := map (fun wi => sub (mul two wi) lambda) (firstn k w) in
  let ks := (k * k)%nat in
  let Hess := dcopy ks G in
  let Hess := daxpy ks one G Hess in
  (Hess, beta).

(** [GetGrad]: [grad = Hess * x - beta]. *)
Definition GetGrad (grad Hess beta x : vec) (k : nat) : vec :=
  let grad := dgemv k one Hess x zero grad in
  daxpy k mone beta grad.

(** [ObjValue]: [x' * (G * x - beta)]; the second component is what the
    call leaves in [tmp]. *)
Definition ObjValue (G beta x tmp : vec) (k : nat) : double * vec :=
  let tmp := dgemv k one G x zero tmp in
  let tmp := daxpy k mone beta tmp in
  (ddot k x tmp, tmp).

(** [GetAlpha]: the Barzilai-Borwein quotient
    [(x - x_old)' (x - x_old) / ((x - x_old)' (g - g_old))]; the second
    component is what the call leaves in [tmp]. *)
Definition GetAlpha (x x_old g g_old : vec) (k : nat) : double * vec :=
  let tmp := dcopy k x in
  let tmp := daxpy k mone x_old tmp in
  let tmp1 := dcopy k g in
  let tmp1 := daxpy k mone g_old tmp1 in
  let numerator := ddot k tmp tmp in
  let denominator := ddot k tmp tmp1 in
  (div numerator denominator, tmp).

(** One coordinate of [ProjHyperCube]. *)
Definition clamp01 (xi : double) : double :=
  if ltb xi zero then zero
  else if ltb one xi then one
  else xi.

Definition ProjHyperCube (x : vec) (m : nat) : vec :=
  map clamp01 (firstn m x).

(** [GetProjStep]: [d = Proj(x - alpha * g) - x]. *)
Definition GetProjStep (x g : vec) (alpha : double) (k : nat) : vec :=
  let d := dcopy k x in
  let malpha := opp alpha in
  let d := daxpy k malpha g d in
  let d := ProjHyperCube d k in
  daxpy k mone x d.

Definition GetDirectDerivative (g d : vec) (k : nat) : double := ddot k g d.

Definition NormOne (x : vec) (k : nat) : double := dasum k x.

(** ** The state of one solve

    The fields are the variables of [HCLasso] that live across the
    iterations of the SPG loop.  The buffers [x_old] and [g_old] are
    written for the first time when the first step is taken; until then
    they hold what the caller left in them. *)

Record state : Type := mkState {
  x : vec;
  x_old : vec;
  g : vec;
  g_old : vec;
  tmp : vec;
  old_fvals : vec;
  f : double;
  fmin : double;
  ahat : vec;
  fhat : double;
  iter : nat
}.

(** *** The spectral step length *)

(** The guard on the quotient: [if (alpha <= 1e-10 || alpha > 1e10) alpha = 1]. *)
Definition safeguard (alpha : double) : double :=
  if (leb alpha OPT_TOL || ltb ALPHA_MAX alpha)%bool then one else alpha.

(** The step length chosen at the head of an iteration, with the
    contents it leaves in [tmp]. *)
Definition select_alpha (k : nat) (st : state) : double * vec :=
  if Nat.eqb (iter st) 0 then (one, tmp st)
  else
    let (alpha, tmp') := GetAlpha (x st) (x_old st) (g st) (g_old st) k in
    (safeguard alpha, tmp').

(** *** The memory of the non-monotone line search *)

(** The update of [old_fvals] at iteration [iter]: the slot [iter] while
    the memory is not full, a shift by one afterwards. *)
Fixpoint set_nth (i : nat) (v : double) (l : vec) : vec :=
  match l, i with
  | [], _ => []
  | _ :: l', O => v :: l'
  | a :: l', S i' => a :: set_nth i' v l'
  end.

Definition record_fval (it : nat) (fv : double) (old : vec) : vec :=
  if Nat.ltb it MEM_OLD_VALUES then set_nth it fv old
  else firstn (MEM_OLD_VALUES - 1) (tl old) ++ [fv].

(** [f_ref = max(old_fvals)], by the scan of the program. *)
Definition max_fvals (old : vec) : double :=
  fold_left (fun f_ref v => if ltb f_ref v then v else f_ref)
            (firstn (MEM_OLD_VALUES - 1) (tl old)) (hd zero old).

(** *** The backtracking loop *)

Record ls_result : Type := mkLs {
  ls_t : double;
  ls_norm1_dx : double;
  ls_red_f : double;
  ls_factor : double;
  ls_failed : bool
}.

(** The change of the objective predicted for the trial [factor]. *)
Definition trial_linear (Linear factor : double) : double :=
  mul Linear factor.

Definition trial_quad (Quad factor : double) : double :=
  mul (mul Quad factor) factor.

Definition trial_red_f (Linear Quad factor : double) : double :=
  add (mul half (trial_quad Quad factor)) (trial_linear Linear factor).

(** The test [f_tmp < f_ref + suffDec * linear]. *)
Definition sufficient_descent (fv f_ref Linear Quad factor : double) : bool :=
  ltb (add fv (trial_red_f Linear Quad factor))
      (add f_ref (mul SUFF_DESC (trial_linear Linear factor))).

(** The test [Norm1_dx * factor < optTol || t == 0]. *)
Definition step_too_small (Norm1_dx t factor : double) : bool :=
  (ltb (mul Norm1_dx factor) OPT_TOL || eqb t zero)%bool.

Fixpoint line_search (fuel : nat)
    (fv f_ref Linear Quad Norm1_dx t factor : double) : option ls_result :=
  match fuel with
  | O => None
  | S fuel' =>
      if sufficient_descent fv f_ref Linear Quad factor then
        Some (mkLs (mul t factor) (mul Norm1_dx factor)
                   (trial_red_f Linear Quad factor) factor false)
      else
        let factor := mul factor half in
        if step_too_small Norm1_dx t factor then
          Some (mkLs zero zero zero factor true)
        else line_search fuel' fv f_ref Linear Quad Norm1_dx t factor
  end.

(** *** One iteration of the SPG loop *)

Section Iteration.

Variables (Hess beta : vec) (k : nat).

(** "Compute Step Direction" and "Compute the projected step". *)
Record direction : Type := mkDir {
  dir_alpha : double;
  dir_d : vec;
  dir_gtd : double;
  dir_tmp : vec
}.

Definition compute_direction (st : state) : direction :=
  let (alpha, tmp') := select_alpha k st in
  let d := GetProjStep (x st) (g st) alpha k in
  mkDir alpha d (GetDirectDerivative (g st) d k) tmp'.

(** The test [gtd > -optTol] that leaves the loop. *)
Definition no_descent (gtd : double) : bool := ltb (opp OPT_TOL) gtd.

(** The initial guess of the step length. *)
Definition initial_t (st : state) : double :=
  if Nat.eqb (iter st) 0 then
    let t := div one (NormOne (g st) k) in
    if ltb one t then one else t
  else one.

(** What the line search starts from. *)
Record search_input : Type := mkSearch {
  si_t : double;
  si_old_fvals : vec;
  si_f_ref : double;
  si_Linear : double;
  si_Quad : double;
  si_Norm1_dx : double;
  si_tmp : vec
}.

Definition prepare_search (st : state) (dr : direction) : search_input :=
  let t := initial_t st in
  let old := record_fval (iter st) (f st) (old_fvals st) in
  let f_ref := max_fvals old in
  let Linear := mul t (dir_gtd dr) in
  let tmp' := dgemv k one Hess (dir_d dr) zero (dir_tmp dr) in
  let Quad := ddot k (dir_d dr) tmp' in
  let Quad := mul (mul Quad t) t in
  let Norm1_dx := mul t (NormOne (dir_d dr) k) in
  mkSearch t old f_ref Linear Quad Norm1_dx tmp'.

Definition run_search (fuel : nat) (st : state) (si : search_input)
    : option ls_result :=
  line_search fuel (f st) (si_f_ref si) (si_Linear si) (si_Quad si)
              (si_Norm1_dx si) (si_t si) one.

(** "Take Step" and "keep track of the minimum value attained". *)
Definition take_step (st : state) (dr : direction) (si : search_input)
    (ls : ls_result) : state :=
  let x_old' := dcopy k (x st) in
  let x' := daxpy k (ls_t ls) (dir_d dr) (x st) in
  let g_old' := dcopy k (g st) in
  let g' := GetGrad (g st) Hess beta x' k in
  let f' := add (f st) (ls_red_f ls) in
  let better := ltb f' (fmin st) in
  mkState x' x_old' g' g_old' (si_tmp si) (si_old_fvals si) f'
          (if better then f' else fmin st)
          (if better then dcopy k x' else ahat st)
          (if better then f' else fhat st)
          (S (iter st)).

(** [tmp = ProjHyperCube(x - g) - x], the first-order optimality
    residual. *)
Definition optimality_residual (st : state) : vec :=
  let t0 := dcopy k (x st) in
  let t0 := daxpy k mone (g st) t0 in
  let t0 := ProjHyperCube t0 k in
  daxpy k mone (x st) t0.

(** The four stopping tests at the end of an iteration. *)
Definition stop_optimal (st : state) : bool :=
  ltb (NormOne (optimality_residual st) k) OPT_TOL.
Definition stop_step (ls : ls_result) : bool :=
  ltb (ls_norm1_dx ls) OPT_TOL.
Definition stop_red_f (ls : ls_result) : bool :=
  ltb (dabs (ls_red_f ls)) OPT_TOL.
Definition stop_itermax (st : state) : bool :=
  Nat.ltb itermax (iter st).

Definition check_convergence (st : state) (ls : ls_result) : bool :=
  (stop_optimal st || stop_step ls || stop_red_f ls || stop_itermax st)%bool.

Definition with_tmp (st : state) (t0 : vec) : state :=
  mkState (x st) (x_old st) (g st) (g_old st) t0 (old_fvals st) (f st)
          (fmin st) (ahat st) (fhat st) (iter st).

(** One pass through the body of the SPG loop.  The boolean tells
    whether the pass left the loop by a [break]. *)
Definition spg_iter (fuel : nat) (st : state) : option (state * bool) :=
  let dr := compute_direction st in
  if no_descent (dir_gtd dr) then Some (with_tmp st (dir_tmp dr), true)
  else
    let si := prepare_search st dr in
    match run_search fuel st si with
    | None => None
    | Some ls =>
        let st' := take_step st dr si ls in
        Some (with_tmp st' (optimality_residual st'),
              check_convergence st' ls)
    end.

Fixpoint spg_loop (fuel lfuel : nat) (st : state) : option state :=
  match fuel with
  | O => None
  | S fuel' =>
      match spg_iter lfuel st with
      | None => None
      | Some (st', true) => Some st'
      | Some (st', false) => spg_loop fuel' lfuel st'
      end
  end.

End Iteration.

(** ** [HCLasso]: one subproblem *)

(** The scratch buffers of a worker whose contents at entry are handed
    to a routine: [g] and [tmp] as the output of [dgemv], [x_old] and
    [g_old] as they stand until the first step. *)
Record scratch : Type := mkScratch {
  s_g : vec;
  s_tmp : vec;
  s_x_old : vec;
  s_g_old : vec
}.

Definition scratch_of (st : state) : scratch :=
  mkScratch (g st) (tmp st) (x_old st) (g_old st).

(** The "Initialiation" part of [HCLasso]. *)
Definition init_state (G w a0 : vec) (lambda : double) (k : nat)
    (sc : scratch) : state :=
  let old := repeat (opp DBL_MAX) MEM_OLD_VALUES in
  let (Hess, beta) := SetInput G w lambda k in
  let x0 := dcopy k a0 in
  let g0 := GetGrad (s_g sc) Hess beta x0 k in
  let (f0, tmp0) := ObjValue G beta x0 (s_tmp sc) k in
  let fmin0 := f0 in
  mkState x0 (s_x_old sc) g0 (s_g_old sc) tmp0 old f0 fmin0
          (dcopy k x0) fmin0 0.

(** [HCLasso]: the final state of the solve, whose [ahat] and [fhat] are
    the outputs.  One amount of fuel bounds the SPG loop and each
    backtracking loop. *)
Definition HCLasso (fuel : nat) (G w a0 : vec) (lambda : double) (k : nat)
    (sc : scratch) : option state :=
  let (Hess, beta) := SetInput G w lambda k in
  spg_loop Hess beta k fuel fuel (init_state G w a0 lambda k sc).

(** ** [spawn_threads]: the batch *)

(** How a call can end. *)
Inductive error : Type :=
| OutOfMemory      (* the report "Out of memory." *)
| BadDimensions.   (* a report of mismatched matrix sizes *)

Inductive outcome (A : Type) : Type :=
| Returned (a : A)   (* the call returns normally *)
| Raised (e : error) (* the call reports an error to its caller *)
| NullScratch        (* [HCLasso] is entered with a null scratch pointer *)
| NoAnswer.          (* the fuel of a loop ran out *)

Arguments Returned {A} a.
Arguments Raised {A} e.
Arguments NullScratch {A}.
Arguments NoAnswer {A}.

(** The results of the eleven calls of [malloc]: [true] for a block,
    [false] for a null pointer. *)
Record allocation : Type := mkAlloc {
  al_Hess : bool;
  al_beta : bool;
  al_x : bool;
  al_x_old : bool;
  al_g : bool;
  al_g_old : bool;
  al_dsct : bool;
  al_old_fvals : bool;
  al_tmp : bool;
  al_tmp1 : bool;
  al_fhat : bool
}.

Definition all_allocated : allocation :=
  mkAlloc true true true true true true true true true true true.

(** The condition [Hess == NULL || beta == NULL || ... || fhat == NULL]. *)
Definition any_null (al : allocation) : bool :=
  (negb (al_Hess al) || negb (al_beta al) || negb (al_x al)
   || negb (al_x_old al) || negb (al_g al) || negb (al_g_old al)
   || negb (al_dsct al) || negb (al_old_fvals al) || negb (al_tmp al)
   || negb (al_tmp1 al) || negb (al_fhat al))%bool.

(** The statement guarded by that condition.  Its body holds nothing
    but the comment [//mexErrMsgTxt("Out of memory.");], so no report
    is made on either branch. *)
Definition memory_check (al : allocation) : option error :=
  if any_null al then None else None.

(** The write of [vals] at offset [off] of the buffer [arr]. *)
Definition write_at (off : nat) (vals arr : vec) : vec :=
  firstn off arr ++ vals ++ skipn (off + length vals) arr.

(** The loop [for (j = 0; j < d; j++)], with [n] columns left to do.
    The pointers [W + j * k] and [A + j * k] are the suffixes of the
    buffers; the worker's scratch goes from one solve to the next. *)
Fixpoint solve_columns (fuel : nat) (G W A : vec) (lambda : double)
    (k n j : nat) (sc : scratch) (Anew : vec) (loss : double)
    : option (vec * double * scratch) :=
  match n with
  | O => Some (Anew, loss, sc)
  | S n' =>
      match HCLasso fuel G (skipn (j * k) W) (skipn (j * k) A) lambda k sc with
      | None => None
      | Some st =>
          solve_columns fuel G W A lambda k n' (S j) (scratch_of st)
                        (write_at (j * k) (ahat st) Anew)
                        (add loss (fhat st))
      end
  end.

(** [spawn_threads]; [heap] is what the fresh scratch blocks contain.
    The result is the contents of [Anew] and of [Loss_new[0]]. *)
Definition spawn_threads (fuel : nat) (al : allocation) (heap : scratch)
    (G W A : vec) (lambda : double) (k d : nat) (Anew : vec)
    : outcome (vec * double) :=
  match memory_check al with
  | Some e => Raised e
  | None =>
      match d with
      | O => Returned (Anew, zero)
      | S _ =>
          if any_null al then NullScratch
          else
            match solve_columns fuel G W A lambda k d 0 heap Anew zero with
            | None => NoAnswer
            | Some (Anew', loss, _) => Returned (Anew', loss)
            end
      end
  end.

(** ** [RHLasso]: the entry point *)

(** A numeric matrix of R: its dimensions and its column-major data. *)
Record matrix : Type := mkMatrix {
  nrow : nat;
  ncol : nat;
  data : vec
}.

(** The list [A], [Loss] handed back to R. *)
Record result : Type := mkResult {
  res_A : matrix;
  res_Loss : matrix
}.

(** [k] and [d] are the dimensions of [W]; no dimension of [G] or [A]
    is looked at.  The solves read [k * k] entries of [G] and [k * d]
    entries of [W] and [A]: the definition stands for buffers that hold
    at least that many entries, since the program reads past the end of
    a shorter one, where lists are cut short. *)
Definition RHLasso (fuel : nat) (al : allocation) (heap : scratch)
    (Ginp Winp Ainp : matrix) (lambda : double) : outcome result :=
  let k := nrow Winp in
  let d := ncol Winp in
  let newA := repeat zero (k * d) in
  match spawn_threads fuel al heap (data Ginp) (data Winp) (data Ainp)
                      lambda k d newA with
  | Returned (Anew, loss) =>
      Returned (mkResult (mkMatrix k d Anew) (mkMatrix 1 1 [loss]))
  | Raised e => Raised e
  | NullScratch => NullScratch
  | NoAnswer => NoAnswer
  end.

(** * Vocabulary of the statements *)

(** [fle a b]: [a] is [b] itself or compares below [b]. *)
Definition fle (a b : double) : Prop := a = b \/ ltb a b = true.

(** The factor of the line search after [i] halvings. *)
Definition halved (factor : double) (i : nat) : double :=
  Nat.iter i (fun c => mul c half) factor.

(** The value that fills the memory of the line search at the start. *)
Definition sentinel : double := opp DBL_MAX.

(** The last [n] entries of a list. *)
Definition lastn (n : nat) (l : vec) : vec := skipn (length l - n) l.

(** The memory that holds the recorded objective values [fs], oldest
    first: the last [MEM_OLD_VALUES] of them, then the unused slots. *)
Definition window (fs : vec) : vec :=
  lastn MEM_OLD_VALUES fs ++ repeat sentinel (MEM_OLD_VALUES - length fs).

(** The largest entry by the scan of the program, from the left. *)
Definition scan_max (l : vec) : double :=
  fold_left (fun m v => if ltb m v then v else m) (tl l) (hd zero l).

(** The acceptance test of the line search as a formula of the step
    length [t], the directional derivative [gtd = g . d], the curvature
    [dHd = d' Hess d] and the trial factor [c]:
    [f + (0.5 * quad + linear) < f_ref + 1e-3 * linear] with
    [linear = t * gtd * c] and [quad = dHd * t * t * c * c]. *)
Definition predicted_change (t gtd dHd c : double) : double :=
  add (mul half (mul (mul (mul (mul dHd t) t) c) c)) (mul (mul t gtd) c).

Definition accepts (fv f_ref t gtd dHd c : double) : bool :=
  ltb (add fv (predicted_change t gtd dHd c))
      (add f_ref (mul SUFF_DESC (mul (mul t gtd) c))).

(** The result of a line search, [r] if it has none. *)
Definition result_or (o : option ls_result) (r : ls_result) : ls_result :=
  match o with
  | Some r' => r'
  | None => r
  end.

(** What the line search of the iteration at [st] does, when [fs] are
    the objective values recorded by the iterations before, and [r] is
    its result: the reference value is an entry of the memory that no
    entry exceeds, the unused slots of the memory do not count, and
    the trials go through the halved factors up to the first one that
    passes the test. *)
Definition acceptance_rule (Hess : vec) (k : nat) (fs : vec) (st : state)
    (r : ls_result) : Prop :=
  let d := dir_d (compute_direction k st) in
  let t := initial_t k st in
  let gtd := ddot k (g st) d in
  let dHd :=
    ddot k d (dgemv k one Hess d zero (dir_tmp (compute_direction k st))) in
  let recorded := fs ++ [f st] in
  let f_ref := scan_max (window recorded) in
  In f_ref (window recorded)
  /\ (forall v, In v (window recorded) -> ltb f_ref v = false)
  /\ ((forall v, In v (lastn MEM_OLD_VALUES recorded) ->
       ltb v sentinel = false) ->
      f_ref = scan_max (lastn MEM_OLD_VALUES recorded))
  /\ exists n,
       (forall i, i < n ->
          accepts (f st) f_ref t gtd dHd (halved one i) = false)
       /\ ls_factor r = halved one n
       /\ (if ls_failed r then 0 < n
           else accepts (f st) f_ref t gtd dHd (halved one n) = true
                /\ ls_t r = mul t (halved one n)
                /\ ls_red_f r = predicted_change t gtd dHd (halved one n)).

(** What happens in the iteration at [st] when its line search, with
    the result [r], gives up. *)
Definition zero_step_stop (Hess beta : vec) (k fuel : nat) (st : state)
    (r : ls_result) : Prop :=
  let si := prepare_search Hess k st (compute_direction k st) in
  (exists n,
     0 < n
     /\ (forall i, i < n ->
          sufficient_descent (f st) (si_f_ref si) (si_Linear si) (si_Quad si)
                             (halved one i) = false)
     /\ (ltb (mul (si_Norm1_dx si) (halved one n)) OPT_TOL
         || eqb (si_t si) zero)%bool = true)
  /\ ls_t r = zero /\ ls_norm1_dx r = zero /\ ls_red_f r = zero
  /\ stop_step r = true
  /\ exists st',
       spg_iter Hess beta k fuel st = Some (st', true)
       /\ (forall n, spg_loop Hess beta k (S n) fuel st = Some st')
       /\ x st' = x st
       /\ f st' = add (f st) zero
       /\ fhat st' = (if ltb (add (f st) zero) (fmin st)
                      then add (f st) zero else fhat st).

(** The part of a state that the rest of the solve can depend on: the
    contents of [tmp] are always overwritten before they are read, and
    so are those of [x_old] and [g_old] before the first step. *)
Definition live (st : state) : state :=
  mkState (x st) (if Nat.eqb (iter st) 0 then [] else x_old st)
          (g st) (if Nat.eqb (iter st) 0 then [] else g_old st)
          [] (old_fvals st) (f st) (fmin st) (ahat st) (fhat st) (iter st).

Definition live_result (p : state * bool) : state * bool :=
  (live (fst p), snd p).

(** The two outputs of a solve. *)
Definition best_of (st : state) : vec * double := (ahat st, fhat st).

Definition empty_scratch : scratch := mkScratch [] [] [] [].

(** The solve of column [j] on its own, from an empty scratch. *)
Definition solve_column (fuel : nat) (G W A : vec) (lambda : double)
    (k j : nat) : option (vec * double) :=
  option_map best_of
    (HCLasso fuel G (skipn (j * k) W) (skipn (j * k) A) lambda k
             empty_scratch).

Fixpoint collect {T : Type} (l : list (option T)) : option (list T) :=
  match l with
  | [] => Some []
  | None :: _ => None
  | Some a :: l' =>
      match collect l' with
      | None => None
      | Some r => Some (a :: r)
      end
  end.

(** The batch as the specification describes it: every column is
    solved on its own, the minimisers are the columns of [Anew] and the
    loss is the sum of the best values, added up from the first column
    on. *)
Definition batch_spec (fuel : nat) (G W A : vec) (lambda : double)
    (k d : nat) : outcome result :=
  match collect (map (solve_column fuel G W A lambda k) (seq 0 d)) with
  | Some rs =>
      Returned (mkResult (mkMatrix k d (concat (map fst rs)))
                         (mkMatrix 1 1 [fold_left add (map snd rs) zero]))
  | None => NoAnswer
  end.

(** A state whose vectors have the length [k] of the problem. *)
Definition sized (k : nat) (st : state) : Prop :=
  length (x st) = k /\ length (g st) = k /\ length (ahat st) = k.

(** What [spawn_threads] hands back, without the scratch. *)
Definition outputs (r : option (vec * double * scratch))
    : option (vec * double) :=
  option_map (fun p => (fst (fst p), snd (fst p))) r.

(** The bookkeeping of the best value between three states of one
    solve: [st1], a later state [st2], and the state [st3] that the
    iteration at [st2] leads to. *)
Definition best_tracking (k : nat) (st1 st2 st3 : state) : Prop :=
  fle (fhat st2) (fhat st1)
  /\ fle (fhat st3) (fhat st2)
  /\ (if ltb (f st3) (fhat st2)
      then fhat st3 = f st3 /\ ahat st3 = dcopy k (x st3)
      else fhat st3 = fhat st2 /\ ahat st3 = ahat st2).

(** The state that an iteration leads to, [st] if it has none. *)
Definition state_after (o : option (state * bool)) (st : state) : state :=
  match o with
  | Some p => fst p
  | None => st
  end.

(** [spg_run fuel st fs st']: the SPG loop goes from [st] to [st']
    through iterations that do not leave the loop; [fs] lists the
    objective values that these iterations recorded, oldest first. *)
Inductive spg_run (Hess beta : vec) (k fuel : nat)
    : state -> vec -> state -> Prop :=
| run_nil st : spg_run Hess beta k fuel st [] st
| run_step st fs st' st'' :
    spg_run Hess beta k fuel st fs st' ->
    spg_iter Hess beta k fuel st' = Some (st'', false) ->
    spg_run Hess beta k fuel st (fs ++ [f st']) st''.

(** Column [j] of a column-major buffer with [k] rows. *)
Definition col (k j : nat) (M : vec) : vec := firstn k (skipn (j * k) M).

(** A value that is neither NaN nor infinite. *)
Definition is_finite (a : double) : bool :=
  match a with
  | S754_zero _ | S754_finite _ _ _ => true
  | _ => false
  end.

(** A value whose sign bit is clear, or NaN: nothing that compares
    below zero, and not the negative zero. *)
Definition sign_clear (a : double) : bool :=
  match a with
  | S754_zero s | S754_infinity s | S754_finite s _ _ => negb s
  | S754_nan => true
  end.

(** The best pair of a state is that of [st0], or its value compares
    strictly below that of [st0]. *)
Definition start_or_better (st0 st : state) : Prop :=
  (ahat st = ahat st0 /\ fhat st = fhat st0)
  \/ ltb (fhat st) (fhat st0) = true.

(** A zero of either sign. *)
Definition is_zero (a : double) : bool :=
  match a with
  | S754_zero _ => true
  | _ => false
  end.

(** A well-formed binary64 value. *)
Definition valid (a : double) : bool := valid_binary prec emax a.

(** * Properties *)

Unset Implicit Arguments.

(** ** Facts on [double] *)

Lemma add_nan_r (a : double) : add a nan = nan.
Proof. destruct a; reflexivity. Qed.

Lemma mul_nan_r (a : double) : mul a nan = nan.
Proof. destruct a; reflexivity. Qed.

Lemma mul_nan_l (a : double) : mul nan a = nan.
Proof. reflexivity. Qed.

Lemma ltb_nan_l (a : double) : ltb nan a = false.
Proof. reflexivity. Qed.

Lemma ltb_nan_r (a : double) : ltb a nan = false.
Proof. destruct a; reflexivity. Qed.

Lemma ltb_irrefl (a : double) : ltb a a = false.
Proof.
  destruct a as [s|s| |s m e]; try reflexivity; try (destruct s; reflexivity).
  unfold ltb, SFltb, SFcompare.
  destruct s; rewrite Z.compare_refl, Pos.compare_cont_refl; reflexivity.
Qed.

Lemma HCLasso_unfold fuel G w a0 lambda k sc :
  HCLasso fuel G w a0 lambda k sc =
  spg_loop (fst (SetInput G w lambda k)) (snd (SetInput G w lambda k)) k
           fuel fuel (init_state G w a0 lambda k sc).
Proof. unfold HCLasso. destruct (SetInput G w lambda k); reflexivity. Qed.

(** ** The empty batch *)

(** C10.  When [W] has no column, the call returns the [k] by [0] matrix
    and the loss zero, whatever the fuel: also with no fuel at all, so
    that no iteration of the solver is run.  The empty batch is not an
    error. *)
Theorem RHLasso_empty_batch fuel al heap Ginp Winp Ainp lambda :
  ncol Winp = 0 ->
  RHLasso fuel al heap Ginp Winp Ainp lambda =
  Returned (mkResult (mkMatrix (nrow Winp) 0 []) (mkMatrix 1 1 [zero])).
Proof.
  intros Hd. unfold RHLasso, spawn_threads, memory_check. rewrite Hd.
  rewrite Nat.mul_0_r. destruct (any_null al); reflexivity.
Qed.

Lemma RHLasso_empty_batch_witness :
  ncol (mkMatrix 2 0 []) = 0 /\
  RHLasso 0 all_allocated (mkScratch [] [] [] [])
          (mkMatrix 2 2 [one; zero; zero; one]) (mkMatrix 2 0 [])
          (mkMatrix 2 0 []) one =
  Returned (mkResult (mkMatrix 2 0 []) (mkMatrix 1 1 [zero])).
Proof.
  split; [reflexivity|].
  apply (RHLasso_empty_batch 0 all_allocated (mkScratch [] [] [] [])
           (mkMatrix 2 2 [one; zero; zero; one]) (mkMatrix 2 0 [])
           (mkMatrix 2 0 []) one).
  reflexivity.
Defined.

(** ** Allocation failure *)

(** C8.  When a call of [malloc] gives a null pointer, [spawn_threads]
    reports nothing: with an empty batch it returns as if nothing had
    happened, and otherwise it enters [HCLasso] with the null pointer.
    The report is the statement that is commented out. *)
Theorem spawn_threads_null_unreported fuel al heap G W A lambda k d Anew :
  any_null al = true ->
  spawn_threads fuel al heap G W A lambda k d Anew =
  match d with
  | O => Returned (Anew, zero)
  | S _ => NullScratch
  end.
Proof.
  intros Hn. unfold spawn_threads, memory_check. rewrite Hn.
  destruct d; reflexivity.
Qed.

Lemma spawn_threads_null_unreported_witness :
  any_null (mkAlloc false true true true true true true true true true true)
  = true /\
  spawn_threads 5 (mkAlloc false true true true true true true true true true true)
                (mkScratch [] [] [] []) [one] [one] [zero] zero 1 1 [zero]
  = NullScratch.
Proof.
  split; [reflexivity|].
  apply (spawn_threads_null_unreported 5
           (mkAlloc false true true true true true true true true true true)
           (mkScratch [] [] [] []) [one] [one] [zero] zero 1 1 [zero]).
  reflexivity.
Defined.

(** ** The starting point is not projected *)

(** C1.  On [G = (1)], [w = (2)], [lambda = 0] and the starting point
    [(2)], the gradient at the starting point is zero, the solve stops
    at the first descent test, and the column handed back is the
    starting point itself, outside of the unit hypercube. *)
Theorem RHLasso_returns_infeasible_start fuel heap :
  RHLasso (S fuel) all_allocated heap (mkMatrix 1 1 [one]) (mkMatrix 1 1 [two])
          (mkMatrix 1 1 [two]) zero =
  Returned (mkResult (mkMatrix 1 1 [two]) (mkMatrix 1 1 [opp (of_Z 4)]))
  /\ in01 two = false.
Proof. split; vm_compute; reflexivity. Qed.

(** ** A backtracking loop that never ends *)

(** Once the ingredients of the line search are NaN, no trial is
    accepted and the step is never found too small: every comparison
    with NaN is false.  The loop uses up any amount of fuel. *)
Lemma line_search_nan fuel fv f_ref t factor :
  eqb t zero = false ->
  line_search fuel fv f_ref nan nan nan t factor = None.
Proof.
  intros Ht. revert factor.
  induction fuel as [|fuel IH]; intros factor; [reflexivity|].
  cbn [line_search].
  assert (Hs : sufficient_descent fv f_ref nan nan factor = false).
  { unfold sufficient_descent, trial_red_f, trial_quad, trial_linear.
    rewrite !mul_nan_l. change (mul half nan) with nan.
    change (add nan nan) with nan. rewrite add_nan_r. apply ltb_nan_l. }
  rewrite Hs. unfold step_too_small. rewrite mul_nan_l, ltb_nan_l, Ht.
  cbn [orb]. apply IH.
Qed.

(** On the finite inputs [G = (2^1023)], [w = (2^1023)], [lambda = 0]
    and the starting point [(1/2)], which lies in the unit hypercube,
    [2 * G] overflows to infinity and the gradient [Hess * x - beta] is
    [inf - inf], a NaN.  The descent test [gtd > -optTol] is false on
    NaN, so the line search is entered with NaN ingredients. *)
Lemma HCLasso_nan_gradient fuel sc :
  HCLasso fuel [pow2 1023] [pow2 1023] [half] zero 1 sc = None.
Proof.
  rewrite HCLasso_unfold.
  destruct fuel as [|fuel]; [reflexivity|].
  cbn [spg_loop]. unfold spg_iter.
  set (Hess := fst (SetInput [pow2 1023] [pow2 1023] zero 1)).
  set (beta := snd (SetInput [pow2 1023] [pow2 1023] zero 1)).
  set (st0 := init_state [pow2 1023] [pow2 1023] [half] zero 1 sc).
  set (dr := compute_direction 1 st0).
  assert (Hgtd : no_descent (dir_gtd dr) = false) by (vm_compute; reflexivity).
  rewrite Hgtd. unfold run_search.
  set (si := prepare_search Hess 1 st0 dr).
  assert (HL : si_Linear si = nan) by (vm_compute; reflexivity).
  assert (HQ : si_Quad si = nan) by (vm_compute; reflexivity).
  assert (HN : si_Norm1_dx si = nan) by (vm_compute; reflexivity).
  assert (Ht : eqb (si_t si) zero = false) by (vm_compute; reflexivity).
  rewrite HL, HQ, HN, line_search_nan by exact Ht. reflexivity.
Qed.

(** On [G = (1)], [w = (2^59)], [lambda = 0] and the starting point
    [(2^60)] the first step, of length [2^-60] along [(-2^60)], is
    accepted and leaves [x] and [g] as they are; the second iteration
    gets the step length [0 / 0], and its line search the same NaN
    ingredients. *)
Lemma HCLasso_nan_step fuel sc :
  HCLasso fuel [one] [pow2 59] [pow2 60] zero 1 sc = None.
Proof.
  rewrite HCLasso_unfold.
  destruct fuel as [|fuel]; [reflexivity|].
  cbn [spg_loop].
  set (Hess := fst (SetInput [one] [pow2 59] zero 1)).
  set (beta := snd (SetInput [one] [pow2 59] zero 1)).
  set (st0 := init_state [one] [pow2 59] [pow2 60] zero 1 sc).
  assert (E0 : exists st1,
             spg_iter Hess beta 1 (S fuel) st0 = Some (st1, false)
             /\ no_descent (dir_gtd (compute_direction 1 st1)) = false
             /\ si_Linear (prepare_search Hess 1 st1 (compute_direction 1 st1)) = nan
             /\ si_Quad (prepare_search Hess 1 st1 (compute_direction 1 st1)) = nan
             /\ si_Norm1_dx (prepare_search Hess 1 st1 (compute_direction 1 st1)) = nan
             /\ eqb (si_t (prepare_search Hess 1 st1 (compute_direction 1 st1))) zero = false).
  { unfold spg_iter.
    assert (Hnd : no_descent (dir_gtd (compute_direction 1 st0)) = false)
      by (vm_compute; reflexivity).
    rewrite Hnd. unfold run_search. cbn [line_search].
    match goal with
    | |- context [sufficient_descent ?a ?b ?c ?d ?e] =>
        assert (Hs : sufficient_descent a b c d e = true)
          by (vm_compute; reflexivity);
        rewrite Hs
    end.
    match goal with
    | |- exists st1, Some (?X, ?c) = Some (st1, false) /\ _ =>
        exists X; split;
        [replace c with false by (vm_compute; reflexivity); reflexivity|]
    end.
    repeat split; vm_compute; reflexivity. }
  destruct E0 as (st1 & -> & Hnd & HL & HQ & HN & Ht).
  destruct fuel as [|fuel']; [reflexivity|].
  cbn [spg_loop]. unfold spg_iter. rewrite Hnd. unfold run_search.
  rewrite HL, HQ, HN, line_search_nan by exact Ht. reflexivity.
Qed.

(** C5.  The solve of the subproblem [G = (2^1023)], [w = (2^1023)],
    [lambda = 0] from the starting point [(1/2)] does not terminate: its
    first backtracking loop runs for ever, so that neither [HCLasso] nor
    the batch call has a result, whatever the fuel.  All the inputs are
    finite and the starting point lies in the unit hypercube.  The
    solve of [G = (1)], [w = (2^59)], [lambda = 0] from [(2^60)] does
    not terminate either: its second backtracking loop runs for ever. *)
Theorem solve_does_not_terminate fuel heap :
  HCLasso fuel [pow2 1023] [pow2 1023] [half] zero 1 heap = None
  /\ RHLasso fuel all_allocated heap (mkMatrix 1 1 [pow2 1023])
              (mkMatrix 1 1 [pow2 1023]) (mkMatrix 1 1 [half]) zero
     = NoAnswer
  /\ HCLasso fuel [one] [pow2 59] [pow2 60] zero 1 heap = None.
Proof.
  split; [apply HCLasso_nan_gradient|]. split; [|apply HCLasso_nan_step].
  unfold RHLasso, spawn_threads. cbn -[HCLasso pow2 half].
  rewrite HCLasso_nan_gradient. reflexivity.
Qed.

(** ** The spectral step length *)

Lemma safeguard_spec (a : double) :
  safeguard a = if (leb a OPT_TOL || ltb ALPHA_MAX a)%bool then one else a.
Proof. reflexivity. Qed.

(** C3 (as stated, refuted).  The solve of [G = (1)], [w = (2^59)],
    [lambda = 0] from [(2^60)] takes a first step of length [2^-60]
    along [d = (-2^60)], which is too short to move [x]: the step is
    accepted with [norm1_dx = 1] and none of the stopping tests holds.
    At the second iteration [x - x_old] and [g - g_old] are zero, the
    quotient is [0 / 0], and this NaN passes the guard: the step length
    is not reset to [1]. *)
Lemma alpha_nan_is_kept :
  exists st1,
    spg_iter (fst (SetInput [one] [pow2 59] zero 1))
             (snd (SetInput [one] [pow2 59] zero 1)) 1 1
             (init_state [one] [pow2 59] [pow2 60] zero 1
                         (mkScratch [] [] [] [])) = Some (st1, false)
    /\ iter st1 = 1
    /\ fst (GetAlpha (x st1) (x_old st1) (g st1) (g_old st1) 1) = div zero zero
    /\ is_nan (div zero zero) = true
    /\ dir_alpha (compute_direction 1 st1) <> one.
Proof.
  eexists. split; [vm_compute; reflexivity|].
  repeat split; try (vm_compute; reflexivity).
  vm_compute. discriminate.
Qed.

(** C3 (amended).  The step length with which the projected step is
    formed is [1] at the first iteration and, at every later one, the
    quotient [(dx . dx) / (dx . dg)] of [dx = x - x_old] and
    [dg = g - g_old], replaced by [1] when it is [<= 1e-10] or
    [> 1e10]; both infinities are replaced. *)
Theorem spectral_step_rule k st :
  let dx := daxpy k mone (x_old st) (dcopy k (x st)) in
  let dg := daxpy k mone (g_old st) (dcopy k (g st)) in
  let a := div (ddot k dx dx) (ddot k dx dg) in
  dir_alpha (compute_direction k st) =
    (if Nat.eqb (iter st) 0 then one
     else if (leb a OPT_TOL || ltb ALPHA_MAX a)%bool then one else a)
  /\ dir_d (compute_direction k st) =
     GetProjStep (x st) (g st) (dir_alpha (compute_direction k st)) k
  /\ safeguard pinf = one
  /\ safeguard ninf = one.
Proof.
  intros dx dg a.
  split; [|split; [|split; vm_compute; reflexivity]].
  - unfold compute_direction, select_alpha.
    destruct (Nat.eqb (iter st) 0); reflexivity.
  - unfold compute_direction. destruct (select_alpha k st); reflexivity.
Qed.

(** ** The order of [double] *)

Lemma ltb_trans (a b c : double) :
  ltb a b = true -> ltb b c = true -> ltb a c = true.
Proof.
  unfold ltb, SFltb.
  destruct a as [sa|sa| |sa ma ea], b as [sb|sb| |sb mb eb],
           c as [sc|sc| |sc mc ec];
    cbn; try discriminate; try reflexivity;
    try (destruct sa; try discriminate; try reflexivity);
    try (destruct sb; try discriminate; try reflexivity);
    try (destruct sc; try discriminate; try reflexivity).
  all: fold (Pos.compare ma mb); fold (Pos.compare mb mc);
       fold (Pos.compare ma mc).
  all: destruct (Z.compare_spec ea eb), (Z.compare_spec eb ec),
         (Z.compare_spec ea ec);
       try lia; try discriminate; try reflexivity.
  all: destruct (Pos.compare_spec ma mb), (Pos.compare_spec mb mc),
         (Pos.compare_spec ma mc);
       cbn; try lia; try discriminate; try reflexivity.
Qed.

Lemma fle_refl (a : double) : fle a a.
Proof. left; reflexivity. Qed.

Lemma fle_trans (a b c : double) : fle a b -> fle b c -> fle a c.
Proof.
  intros [->|Hab] [->|Hbc]; try (left; reflexivity); try (right; assumption).
  right. eapply ltb_trans; eassumption.
Qed.

(** ** The backtracking loop *)

Lemma halved_succ_r (c : double) (i : nat) :
  halved (mul c half) i = halved c (S i).
Proof.
  unfold halved. induction i as [|i IH]; [reflexivity|].
  change (Nat.iter (S i) (fun c0 => mul c0 half) (mul c half))
    with (mul (Nat.iter i (fun c0 => mul c0 half) (mul c half)) half).
  rewrite IH. reflexivity.
Qed.

(** What a result of the loop tells: the trials at the factors
    [halved c 0 .. halved c (n-1)] were refused and did not make the
    step too small, and the loop ended at [halved c n], either by
    accepting the trial there or by finding the step too small. *)
Lemma line_search_spec fuel fv f_ref Linear Quad Norm1_dx t :
  forall c r,
  line_search fuel fv f_ref Linear Quad Norm1_dx t c = Some r ->
  exists n,
    (forall i, i < n ->
       sufficient_descent fv f_ref Linear Quad (halved c i) = false)
    /\ (forall i, 0 < i -> i < n ->
       step_too_small Norm1_dx t (halved c i) = false)
    /\ ((sufficient_descent fv f_ref Linear Quad (halved c n) = true
         /\ (0 < n -> step_too_small Norm1_dx t (halved c n) = false)
         /\ r = mkLs (mul t (halved c n)) (mul Norm1_dx (halved c n))
                     (trial_red_f Linear Quad (halved c n)) (halved c n)
                     false)
        \/ (0 < n
            /\ step_too_small Norm1_dx t (halved c n) = true
            /\ r = mkLs zero zero zero (halved c n) true)).
Proof.
  induction fuel as [|fuel IH]; intros c r H; [discriminate|].
  cbn [line_search] in H.
  destruct (sufficient_descent fv f_ref Linear Quad c) eqn:Hacc.
  - injection H as <-. exists 0. repeat split; try (intros; lia).
    left. repeat split; [exact Hacc | intros; lia].
  - destruct (step_too_small Norm1_dx t (mul c half)) eqn:Hsmall.
    + injection H as <-. exists 1. split; [|split].
      * intros i Hi. replace i with 0 by lia. exact Hacc.
      * intros; lia.
      * right. repeat split; [lia | exact Hsmall].
    + destruct (IH _ _ H) as (n & Hrej & Hns & Hend).
      exists (S n). split; [|split].
      * intros [|i] Hi; [exact Hacc|].
        rewrite <- halved_succ_r. apply Hrej. lia.
      * intros [|i] H0 Hi; [lia|]. rewrite <- halved_succ_r.
        destruct i as [|i]; [exact Hsmall|]. apply Hns; lia.
      * rewrite <- !halved_succ_r.
        destruct Hend as [(Ha & Hs & ->)|(Hn & Hs & ->)].
        -- left. repeat split; [exact Ha|]. intros _.
           destruct n as [|n]; [exact Hsmall | apply Hs; lia].
        -- right. repeat split; [lia | exact Hs].
Qed.

(** ** One iteration, case by case *)

Section IterationFacts.

Variables (Hess beta : vec) (k fuel : nat).

Lemma spg_iter_inv st st' b :
  spg_iter Hess beta k fuel st = Some (st', b) ->
  let dr := compute_direction k st in
  let si := prepare_search Hess k st dr in
  (no_descent (dir_gtd dr) = true
   /\ st' = with_tmp st (dir_tmp dr) /\ b = true)
  \/ (no_descent (dir_gtd dr) = false
      /\ exists ls,
           run_search fuel st si = Some ls
           /\ st' = with_tmp (take_step Hess beta k st dr si ls)
                      (optimality_residual k
                         (take_step Hess beta k st dr si ls))
           /\ b = check_convergence k
                    (take_step Hess beta k st dr si ls) ls).
Proof.
  intros H. cbv zeta. unfold spg_iter in H.
  set (dr := compute_direction k st) in *.
  set (si := prepare_search Hess k st dr) in *.
  destruct (no_descent (dir_gtd dr)).
  - left. injection H as <- <-. repeat split.
  - right. split; [reflexivity|].
    destruct (run_search fuel st si) as [ls|]; [|discriminate].
    exists ls. injection H as <- <-. repeat split.
Qed.

(** An iteration that stays in the loop took a step. *)
Lemma spg_iter_continue st st' :
  spg_iter Hess beta k fuel st = Some (st', false) ->
  old_fvals st' = record_fval (iter st) (f st) (old_fvals st)
  /\ iter st' = S (iter st).
Proof.
  intros H. destruct (spg_iter_inv _ _ _ H) as [(_ & _ & Hb)|(_ & ls & _ & -> & _)].
  - discriminate.
  - split; reflexivity.
Qed.

(** The bookkeeping of the best value through one iteration. *)
Lemma spg_iter_best st st' b :
  spg_iter Hess beta k fuel st = Some (st', b) ->
  ltb (f st) (fmin st) = false -> fhat st = fmin st ->
  ltb (f st') (fmin st') = false /\ fhat st' = fmin st'
  /\ (if ltb (f st') (fhat st)
      then fhat st' = f st' /\ ahat st' = dcopy k (x st')
      else fhat st' = fhat st /\ ahat st' = ahat st).
Proof.
  intros H Hinv Heq.
  destruct (spg_iter_inv _ _ _ H) as [(_ & -> & _)|(_ & ls & _ & -> & _)].
  - cbn. rewrite Heq, Hinv. repeat split; try assumption.
  - cbn -[GetGrad dcopy daxpy]. rewrite Heq.
    destruct (ltb (add (f st) (ls_red_f ls)) (fmin st)) eqn:Hb.
    + rewrite ltb_irrefl. repeat split.
    + rewrite Hb. repeat split; try assumption.
Qed.

Lemma spg_iter_best_fle st st' b :
  spg_iter Hess beta k fuel st = Some (st', b) ->
  ltb (f st) (fmin st) = false -> fhat st = fmin st ->
  fle (fhat st') (fhat st).
Proof.
  intros H Hinv Heq.
  destruct (spg_iter_best _ _ _ H Hinv Heq) as (_ & _ & Hup).
  destruct (ltb (f st') (fhat st)) eqn:Hb.
  - right. destruct Hup as [-> _]. exact Hb.
  - left. apply Hup.
Qed.

Lemma spg_run_app st1 fs1 st2 fs2 st3 :
  spg_run Hess beta k fuel st1 fs1 st2 ->
  spg_run Hess beta k fuel st2 fs2 st3 ->
  spg_run Hess beta k fuel st1 (fs1 ++ fs2) st3.
Proof.
  intros H1 H2. induction H2 as [|st2 fs2 st3 st4 H2 IH Hstep].
  - rewrite app_nil_r. exact H1.
  - rewrite app_assoc. eapply run_step; [apply IH; exact H1 | exact Hstep].
Qed.

Lemma spg_run_best st fs st' :
  spg_run Hess beta k fuel st fs st' ->
  ltb (f st) (fmin st) = false -> fhat st = fmin st ->
  ltb (f st') (fmin st') = false /\ fhat st' = fmin st'
  /\ fle (fhat st') (fhat st).
Proof.
  intros H Hinv Heq. induction H as [|st fs st' st'' H IH Hstep].
  - repeat split; try assumption. apply fle_refl.
  - destruct (IH Hinv Heq) as (Hinv' & Heq' & Hle).
    destruct (spg_iter_best _ _ _ Hstep Hinv' Heq') as (Hi & He & _).
    repeat split; try assumption.
    eapply fle_trans; [|exact Hle].
    eapply spg_iter_best_fle; eassumption.
Qed.

End IterationFacts.

Lemma init_state_best G w a0 lambda k sc :
  ltb (f (init_state G w a0 lambda k sc))
      (fmin (init_state G w a0 lambda k sc)) = false
  /\ fhat (init_state G w a0 lambda k sc)
     = fmin (init_state G w a0 lambda k sc)
  /\ iter (init_state G w a0 lambda k sc) = 0
  /\ old_fvals (init_state G w a0 lambda k sc) = window [].
Proof.
  unfold init_state. destruct (SetInput G w lambda k) as [Hess beta].
  destruct (ObjValue G beta (dcopy k a0) (s_tmp sc) k) as [f0 tmp0].
  cbn. rewrite ltb_irrefl. repeat split.
Qed.

(** ** The best value found so far *)

(** C4.  Along one solve the stored best value only goes down: between
    any two iterations the later [fhat] is the earlier one or compares
    strictly below it; and an iteration replaces [fhat] (by [f]) and
    [ahat] (by [x]) exactly when its objective value [f] is strictly
    smaller than the stored [fhat], and leaves both as they are
    otherwise. *)
Theorem best_value_non_increasing
    G w a0 lambda k sc Hess beta fuel fs1 st1 fs2 st2 st3 b :
  spg_run Hess beta k fuel (init_state G w a0 lambda k sc) fs1 st1 ->
  spg_run Hess beta k fuel st1 fs2 st2 ->
  spg_iter Hess beta k fuel st2 = Some (st3, b) ->
  best_tracking k st1 st2 st3.
Proof.
  intros H1 H2 H3.
  destruct (init_state_best G w a0 lambda k sc) as (Hi0 & He0 & _).
  destruct (spg_run_best _ _ _ _ _ _ _ H1 Hi0 He0) as (Hi1 & He1 & _).
  destruct (spg_run_best _ _ _ _ _ _ _ H2 Hi1 He1) as (Hi2 & He2 & Hle).
  split; [exact Hle|]. split.
  - eapply spg_iter_best_fle; eassumption.
  - apply (spg_iter_best _ _ _ _ _ _ _ H3 Hi2 He2).
Qed.

Lemma best_value_non_increasing_witness :
  let G := [one; zero; zero; one] in
  let w := [zero; zero] in
  let a0 := [zero; half] in
  let Hess := fst (SetInput G w one 2) in
  let beta := snd (SetInput G w one 2) in
  let st0 := init_state G w a0 one 2 empty_scratch in
  let st1 := state_after (spg_iter Hess beta 2 5 st0) st0 in
  let st2 := state_after (spg_iter Hess beta 2 5 st1) st1 in
  best_tracking 2 st0 st1 st2.
Proof.
  intros G w a0 Hess beta st0 st1 st2.
  apply (best_value_non_increasing G w a0 one 2 empty_scratch Hess beta 5
           [] st0 ([] ++ [f st0]) st1 st2 true).
  - apply run_nil.
  - eapply run_step; [apply run_nil | vm_compute; reflexivity].
  - vm_compute. reflexivity.
Defined.

(** ** The memory of recorded objective values *)

Lemma set_nth_app (l r : vec) (a v : double) :
  set_nth (length l) v (l ++ a :: r) = l ++ v :: r.
Proof. induction l as [|b l IH]; cbn; [reflexivity | rewrite IH; reflexivity]. Qed.

Lemma tl_skipn (n : nat) (l : vec) : tl (skipn n l) = skipn (S n) l.
Proof.
  revert l. induction n as [|n IH]; intros [|a l]; try reflexivity.
  - cbn [skipn]. rewrite IH. reflexivity.
Qed.

(** Recording one more value in the memory of [fs] gives the memory of
    [fs] followed by that value. *)
Lemma record_fval_window (fs : vec) (v : double) :
  record_fval (length fs) v (window fs) = window (fs ++ [v]).
Proof.
  unfold record_fval, window, lastn, MEM_OLD_VALUES.
  rewrite length_app. cbn [length].
  destruct (Nat.ltb (length fs) 10) eqn:Hlt.
  - apply Nat.ltb_lt in Hlt.
    replace (length fs - 10) with 0 by lia.
    replace (length fs + 1 - 10) with 0 by lia.
    replace (10 - length fs) with (S (10 - (length fs + 1))) by lia.
    cbn [skipn repeat]. rewrite set_nth_app, <- app_assoc. reflexivity.
  - apply Nat.ltb_ge in Hlt.
    replace (10 - length fs) with 0 by lia.
    replace (10 - (length fs + 1)) with 0 by lia.
    cbn [repeat]. rewrite !app_nil_r, tl_skipn.
    replace (length fs + 1 - 10) with (S (length fs - 10)) by lia.
    rewrite skipn_app.
    replace (S (length fs - 10) - length fs) with 0 by lia.
    change (skipn 0 [v]) with [v]. f_equal. apply firstn_all2.
    rewrite length_skipn. lia.
Qed.

Lemma window_length (fs : vec) : length (window fs) = MEM_OLD_VALUES.
Proof.
  unfold window, lastn, MEM_OLD_VALUES.
  rewrite length_app, length_skipn, repeat_length. lia.
Qed.

(** On a full memory the scan of the program is the scan of the whole
    list. *)
Lemma max_fvals_window (fs : vec) : max_fvals (window fs) = scan_max (window fs).
Proof.
  unfold max_fvals, scan_max. rewrite firstn_all2; [reflexivity|].
  pose proof (window_length fs) as Hl. unfold MEM_OLD_VALUES in *.
  destruct (window fs); cbn in *; lia.
Qed.

Lemma scan_step_in (l : vec) (m : double) :
  In (fold_left (fun m v => if ltb m v then v else m) l m) (m :: l).
Proof.
  revert m. induction l as [|a l IH]; intros m; [left; reflexivity|].
  cbn [fold_left]. destruct (ltb m a).
  - right. apply IH.
  - destruct (IH m) as [H|H]; [left; exact H | right; right; exact H].
Qed.

Lemma scan_step_pad (n : nat) (m : double) :
  ltb m sentinel = false ->
  fold_left (fun m v => if ltb m v then v else m) (repeat sentinel n) m = m.
Proof.
  intros H. induction n as [|n IH]; [reflexivity|].
  cbn [repeat fold_left]. rewrite H. exact IH.
Qed.

(** The unused slots do not count, as long as no recorded value
    compares below the sentinel that fills them. *)
Lemma scan_max_pad (l : vec) (n : nat) :
  l <> [] ->
  (forall v, In v l -> ltb v sentinel = false) ->
  scan_max (l ++ repeat sentinel n) = scan_max l.
Proof.
  intros Hne Hall. destruct l as [|a l]; [contradiction|].
  unfold scan_max. cbn [app hd tl]. rewrite fold_left_app.
  apply scan_step_pad. apply Hall. apply scan_step_in.
Qed.

Lemma fle_not_ltb (a b : double) : fle a b -> ltb b a = false.
Proof.
  intros [->|H]; [apply ltb_irrefl|].
  destruct (ltb b a) eqn:E; [|reflexivity].
  rewrite <- (ltb_irrefl a). symmetry. eapply ltb_trans; eassumption.
Qed.

(** The scan ends on a value that no scanned value exceeds. *)
Lemma scan_step_maximal (l : vec) (m : double) :
  fle m (fold_left (fun m v => if ltb m v then v else m) l m)
  /\ forall v, In v l ->
       ltb (fold_left (fun m v => if ltb m v then v else m) l m) v = false.
Proof.
  revert m. induction l as [|a l IH]; intros m.
  - split; [apply fle_refl | intros v []].
  - cbn [fold_left].
    destruct (IH (if ltb m a then a else m)) as (Hle & Hall).
    destruct (ltb m a) eqn:Hma.
    + split; [eapply fle_trans; [right; exact Hma | exact Hle]|].
      intros v [<-|Hv]; [apply fle_not_ltb, Hle | apply Hall, Hv].
    + split; [exact Hle|].
      intros v [<-|Hv]; [|apply Hall, Hv].
      destruct Hle as [<-|Hlt]; [exact Hma|].
      destruct (ltb (fold_left (fun m0 v => if ltb m0 v then v else m0) l m) a)
        eqn:E; [|reflexivity].
      rewrite (ltb_trans _ _ _ Hlt E) in Hma. discriminate.
Qed.

Lemma scan_max_maximal (l : vec) :
  l <> [] ->
  In (scan_max l) l /\ forall v, In v l -> ltb (scan_max l) v = false.
Proof.
  intros Hne. destruct l as [|a l]; [contradiction|].
  unfold scan_max. cbn [hd tl]. split; [apply scan_step_in|].
  destruct (scan_step_maximal l a) as (Hle & Hall).
  intros v [<-|Hv]; [apply fle_not_ltb, Hle | apply Hall, Hv].
Qed.

(** The memory and the iteration counter along a run of the loop. *)
Lemma spg_run_memory Hess beta k fuel st0 fs st :
  spg_run Hess beta k fuel st0 fs st ->
  iter st0 = 0 -> old_fvals st0 = window [] ->
  iter st = length fs /\ old_fvals st = window fs.
Proof.
  intros H Hi Ho. induction H as [|st0 fs st' st'' H IH Hstep].
  - split; assumption.
  - destruct (IH Hi Ho) as (Hi' & Ho').
    destruct (spg_iter_continue _ _ _ _ _ _ Hstep) as (Hold & Hit).
    rewrite length_app. cbn [length]. split; [lia|].
    rewrite Hold, Hi', Ho'. apply record_fval_window.
Qed.

Lemma lastn_nonempty (n : nat) (l : vec) : 0 < n -> l <> [] -> lastn n l <> [].
Proof.
  intros Hn Hl E. apply (f_equal (@length double)) in E.
  unfold lastn in E. rewrite length_skipn in E.
  destruct l; [contradiction | cbn [length] in E; lia].
Qed.

Lemma compute_direction_gtd k st :
  dir_gtd (compute_direction k st)
  = ddot k (g st) (dir_d (compute_direction k st)).
Proof. unfold compute_direction. destruct (select_alpha k st); reflexivity. Qed.

Lemma sufficient_descent_accepts Hess k st f_ref c :
  sufficient_descent (f st) f_ref
    (si_Linear (prepare_search Hess k st (compute_direction k st)))
    (si_Quad (prepare_search Hess k st (compute_direction k st))) c
  = accepts (f st) f_ref (initial_t k st)
      (ddot k (g st) (dir_d (compute_direction k st)))
      (ddot k (dir_d (compute_direction k st))
         (dgemv k one Hess (dir_d (compute_direction k st)) zero
                (dir_tmp (compute_direction k st)))) c.
Proof.
  unfold prepare_search. cbn [si_Linear si_Quad].
  rewrite compute_direction_gtd. reflexivity.
Qed.

Lemma trial_red_f_predicted Hess k st c :
  trial_red_f
    (si_Linear (prepare_search Hess k st (compute_direction k st)))
    (si_Quad (prepare_search Hess k st (compute_direction k st))) c
  = predicted_change (initial_t k st)
      (ddot k (g st) (dir_d (compute_direction k st)))
      (ddot k (dir_d (compute_direction k st))
         (dgemv k one Hess (dir_d (compute_direction k st)) zero
                (dir_tmp (compute_direction k st)))) c.
Proof.
  unfold prepare_search. cbn [si_Linear si_Quad].
  rewrite compute_direction_gtd. reflexivity.
Qed.

(** ** The non-monotone line search *)

(** C2 (as stated, refuted).  [G] is the zero matrix of size three,
    [w = (2^1022, 2^1022, 2^1022)], [lambda = 0] and the starting point
    is [(3/4, 3/4, 3/4)]: all finite, the point inside the hypercube.
    The objective value at the start is [-infinity], the sum of three
    finite products.  It is the one recorded value, so that the maximum
    of the recorded values is [-infinity]; the memory holds [-DBL_MAX]
    in its nine other slots, and the [f_ref] of the program is
    [-DBL_MAX].  The trial at the factor [1] is accepted, where the
    test taken at the maximum of the recorded values refuses it. *)
Lemma f_ref_is_not_the_recorded_maximum :
  let G := repeat zero 9 in
  let w := repeat (pow2 1022) 3 in
  let a0 := repeat (mul (of_Z 3) (pow2 (-2))) 3 in
  let Hess := fst (SetInput G w zero 3) in
  let st0 := init_state G w a0 zero 3 empty_scratch in
  let dr := compute_direction 3 st0 in
  let si := prepare_search Hess 3 st0 dr in
  let t := initial_t 3 st0 in
  let gtd := ddot 3 (g st0) (dir_d dr) in
  let dHd := ddot 3 (dir_d dr)
                  (dgemv 3 one Hess (dir_d dr) zero (dir_tmp dr)) in
  forallb is_finite (G ++ w ++ a0) = true
  /\ forallb in01 a0 = true
  /\ f st0 = ninf
  /\ no_descent (dir_gtd dr) = false
  /\ scan_max (lastn MEM_OLD_VALUES [f st0]) = ninf
  /\ si_f_ref si = sentinel
  /\ si_f_ref si <> scan_max (lastn MEM_OLD_VALUES [f st0])
  /\ run_search 5 st0 si = Some (mkLs zero zero zero one false)
  /\ accepts (f st0) (si_f_ref si) t gtd dHd one = true
  /\ accepts (f st0) (scan_max (lastn MEM_OLD_VALUES [f st0])) t gtd dHd one
     = false.
Proof.
  cbv zeta.
  split; [vm_compute; reflexivity|].
  split; [vm_compute; reflexivity|].
  split; [vm_compute; reflexivity|].
  split; [vm_compute; reflexivity|].
  split; [vm_compute; reflexivity|].
  split; [vm_compute; reflexivity|].
  split; [vm_compute; discriminate|].
  split; [vm_compute; reflexivity|].
  split; vm_compute; reflexivity.
Qed.

(** C2 (amended).  In the line search of an iteration, the trial at the
    factor [c] is accepted exactly when
    [f + (0.5 * quad + linear) < f_ref + 1e-3 * linear], where
    [linear = t * (g . d) * c] and [quad = (d' Hess d) * t * t * c * c]
    come from the scalars computed before the loop and the objective is
    not evaluated again; [f_ref] is the largest entry of the memory of
    ten slots, which holds the last ten recorded objective values at
    most and [-DBL_MAX] in every slot not used yet, so that it is the
    maximum of the recorded values when none of them compares below
    [-DBL_MAX]; the trials run through the factors [1, 1/2, 1/4, ...]:
    every refused trial halves the factor, and the accepted one gives
    the step length [t * c] and the change of the objective. *)
Theorem nonmonotone_acceptance_rule
    G w a0 lambda k sc Hess beta fuel fs st r :
  spg_run Hess beta k fuel (init_state G w a0 lambda k sc) fs st ->
  run_search fuel st (prepare_search Hess k st (compute_direction k st))
  = Some r ->
  acceptance_rule Hess k fs st r.
Proof.
  intros Hrun Hls.
  destruct (init_state_best G w a0 lambda k sc) as (_ & _ & Hi0 & Ho0).
  destruct (spg_run_memory _ _ _ _ _ _ _ Hrun Hi0 Ho0) as (Hit & Hold).
  unfold acceptance_rule. cbv zeta.
  assert (Hne : window (fs ++ [f st]) <> []).
  { intros E. apply (f_equal (@length double)) in E.
    rewrite window_length in E. discriminate E. }
  destruct (scan_max_maximal _ Hne) as (Hin & Hmax).
  split; [exact Hin|]. split; [exact Hmax|]. split.
  - intros Hall. unfold window at 1.
    apply scan_max_pad; [|exact Hall].
    apply lastn_nonempty; [unfold MEM_OLD_VALUES; lia|].
    destruct fs; discriminate.
  - unfold run_search in Hls.
    assert (Href : si_f_ref (prepare_search Hess k st (compute_direction k st))
                   = scan_max (window (fs ++ [f st]))).
    { unfold prepare_search. cbn [si_f_ref].
      rewrite Hit, Hold, record_fval_window. apply max_fvals_window. }
    rewrite Href in Hls.
    destruct (line_search_spec _ _ _ _ _ _ _ _ _ Hls)
      as (n & Hrej & _ & Hend).
    exists n. split.
    { intros i Hi. rewrite <- sufficient_descent_accepts. apply Hrej, Hi. }
    destruct Hend as [(Ha & _ & ->)|(Hn & _ & ->)];
      cbn [ls_factor ls_failed ls_t ls_red_f].
    + rewrite <- sufficient_descent_accepts, <- trial_red_f_predicted.
      repeat split. exact Ha.
    + split; [reflexivity | exact Hn].
Qed.

Lemma nonmonotone_acceptance_rule_witness :
  let G := [of_Z 3; mone; mone; one] in
  let w := [two; zero] in
  let a0 := [one; one] in
  let Hess := fst (SetInput G w one 2) in
  let beta := snd (SetInput G w one 2) in
  let st0 := init_state G w a0 one 2 empty_scratch in
  let st1 := state_after (spg_iter Hess beta 2 5 st0) st0 in
  let dr := compute_direction 2 st1 in
  let gtd := ddot 2 (g st1) (dir_d dr) in
  let dHd := ddot 2 (dir_d dr)
                  (dgemv 2 one Hess (dir_d dr) zero (dir_tmp dr)) in
  acceptance_rule Hess 2 [f st0] st1
    (mkLs half half (opp (pow2 (-3))) half false)
  /\ accepts (f st1) (scan_max (window [f st0; f st1])) (initial_t 2 st1)
             gtd dHd one = false
  /\ accepts (f st1) (scan_max (window [f st0; f st1])) (initial_t 2 st1)
             gtd dHd half = true.
Proof.
  intros G w a0 Hess beta st0 st1 dr gtd dHd.
  split; [|split; vm_compute; reflexivity].
  apply (nonmonotone_acceptance_rule G w a0 one 2 empty_scratch Hess beta 5
           ([] ++ [f st0]) st1).
  - eapply run_step; [apply run_nil | vm_compute; reflexivity].
  - vm_compute. reflexivity.
Defined.

(** ** A line search that gives up *)

Lemma daxpy_zero (n : nat) (x y : vec) : daxpy n zero x y = y.
Proof. unfold daxpy. rewrite orb_true_r. reflexivity. Qed.

(** C6.  When the backtracking loop gives up, that is when after some
    refused trials [Norm1_dx * factor] is below [optTol] (or [t] is
    zero), the step length, [norm1_dx] and the change of the objective
    are zero; the step leaves [x] as it is; the test on the step size
    holds at the convergence check of the same iteration, and the
    iteration leaves the loop in the ordinary way, with no error. *)
Theorem exhausted_search_stops Hess beta k fuel st r :
  no_descent (dir_gtd (compute_direction k st)) = false ->
  run_search fuel st (prepare_search Hess k st (compute_direction k st))
  = Some r ->
  ls_failed r = true ->
  zero_step_stop Hess beta k fuel st r.
Proof.
  intros Hnd Hls Hfail. unfold zero_step_stop. cbv zeta.
  pose proof Hls as Hls'. unfold run_search in Hls'.
  destruct (line_search_spec _ _ _ _ _ _ _ _ _ Hls')
    as (n & Hrej & _ & [(_ & _ & ->)|(Hn & Hsmall & ->)]);
    [discriminate Hfail|].
  split; [exists n; repeat split; assumption|].
  do 4 (split; [reflexivity|]).
  set (dr := compute_direction k st) in *.
  set (si := prepare_search Hess k st dr) in *.
  set (ls := mkLs zero zero zero (halved one n) true) in *.
  exists (with_tmp (take_step Hess beta k st dr si ls)
            (optimality_residual k (take_step Hess beta k st dr si ls))).
  assert (Hit : spg_iter Hess beta k fuel st
                = Some (with_tmp (take_step Hess beta k st dr si ls)
                          (optimality_residual k
                             (take_step Hess beta k st dr si ls)), true)).
  { unfold spg_iter. fold dr. rewrite Hnd. fold si. rewrite Hls.
    f_equal. f_equal. unfold check_convergence.
    change (stop_step ls) with true.
    rewrite orb_true_r. reflexivity. }
  clear Hls'. unfold spg_iter in Hit. fold dr in Hit.
  split; [|split].
  - unfold spg_iter. fold dr. exact Hit.
  - intros m. cbn [spg_loop]. unfold spg_iter. fold dr. rewrite Hit.
    reflexivity.
  - unfold take_step, with_tmp.
    cbn [x f fhat fmin ls_t ls_red_f ls]. rewrite daxpy_zero.
    split; [reflexivity|]. split; [reflexivity|].
    destruct (ltb (add (f st) zero) (fmin st)); reflexivity.
Qed.

Lemma exhausted_search_stops_witness :
  zero_step_stop
    (fst (SetInput [pow2 20] [sub (pow2 19) (pow2 (-11))] zero 1))
    (snd (SetInput [pow2 20] [sub (pow2 19) (pow2 (-11))] zero 1)) 1 30
    (init_state [pow2 20] [sub (pow2 19) (pow2 (-11))] [half] zero 1
                (mkScratch [] [] [] []))
    (mkLs zero zero zero (pow2 (-24)) true).
Proof.
  apply exhausted_search_stops.
  - vm_compute. reflexivity.
  - vm_compute. reflexivity.
  - reflexivity.
Defined.

(** ** What the batch reads of [G] and [A] *)

Lemma firstn_prefix_eq (n m : nat) (l l' : vec) :
  n <= m -> firstn m l = firstn m l' -> firstn n l = firstn n l'.
Proof.
  intros Hnm H.
  assert (E : forall M : vec, firstn n M = firstn n (firstn m M)).
  { intros M. rewrite firstn_firstn. f_equal. lia. }
  rewrite (E l), (E l'), H. reflexivity.
Qed.

(** The matrix-vector product reads one column of [A] for every entry
    of [x]. *)
Lemma dgemv_cols_prefix (k : nat) (alpha : double) (x : vec) :
  forall A y,
  dgemv_cols k alpha (firstn (k * length x) A) x y = dgemv_cols k alpha A x y.
Proof.
  induction x as [|xj x IH]; intros A y; [reflexivity|].
  cbn [dgemv_cols length].
  rewrite firstn_firstn.
  replace (Nat.min k (k * S (length x))) with k by lia.
  rewrite skipn_firstn_comm.
  replace (k * S (length x) - k) with (k * length x) by lia.
  apply IH.
Qed.

Lemma dgemv_matrix_prefix (k : nat) (alpha beta : double) (A A' x y : vec) :
  firstn (k * k) A = firstn (k * k) A' ->
  dgemv k alpha A x beta y = dgemv k alpha A' x beta y.
Proof.
  intros H. unfold dgemv. destruct (eqb alpha zero); [reflexivity|].
  rewrite <- (dgemv_cols_prefix k alpha (firstn k x) A).
  rewrite <- (dgemv_cols_prefix k alpha (firstn k x) A').
  f_equal. apply firstn_prefix_eq with (m := k * k); [|exact H].
  rewrite length_firstn. nia.
Qed.

Lemma SetInput_prefix (G G' w : vec) (lambda : double) (k : nat) :
  firstn (k * k) G = firstn (k * k) G' ->
  SetInput G w lambda k = SetInput G' w lambda k.
Proof.
  intros H. unfold SetInput, dcopy, daxpy. rewrite H. reflexivity.
Qed.

Lemma HCLasso_prefix fuel (G G' w a0 a0' : vec) lambda k sc :
  firstn (k * k) G = firstn (k * k) G' ->
  firstn k a0 = firstn k a0' ->
  HCLasso fuel G w a0 lambda k sc = HCLasso fuel G' w a0' lambda k sc.
Proof.
  intros HG Ha. unfold HCLasso, init_state.
  rewrite (SetInput_prefix G G' w lambda k HG).
  destruct (SetInput G' w lambda k) as [Hess beta].
  unfold dcopy, ObjValue. rewrite Ha.
  rewrite (dgemv_matrix_prefix k one zero G G' _ _ HG). reflexivity.
Qed.

Lemma column_prefix (k d j : nat) (A A' : vec) :
  j < d ->
  firstn (k * d) A = firstn (k * d) A' ->
  firstn k (skipn (j * k) A) = firstn k (skipn (j * k) A').
Proof.
  intros Hj H.
  assert (E : forall M : vec,
             firstn k (skipn (j * k) M)
             = firstn k (skipn (j * k) (firstn (k * d) M))).
  { intros M. rewrite skipn_firstn_comm, firstn_firstn.
    replace (Nat.min k (k * d - j * k)) with k by nia. reflexivity. }
  rewrite (E A), (E A'), H. reflexivity.
Qed.

Lemma solve_columns_prefix fuel (G G' W A A' : vec) lambda k d :
  firstn (k * k) G = firstn (k * k) G' ->
  firstn (k * d) A = firstn (k * d) A' ->
  forall n j sc Anew loss, j + n <= d ->
  solve_columns fuel G W A lambda k n j sc Anew loss
  = solve_columns fuel G' W A' lambda k n j sc Anew loss.
Proof.
  intros HG HA. induction n as [|n IH]; intros j sc Anew loss Hj;
    [reflexivity|].
  cbn [solve_columns].
  rewrite (HCLasso_prefix fuel G G' (skipn (j * k) W)
             (skipn (j * k) A) (skipn (j * k) A') lambda k sc HG)
    by (apply column_prefix with (d := d); [lia | exact HA]).
  destruct (HCLasso fuel G' (skipn (j * k) W) (skipn (j * k) A') lambda k sc);
    [|reflexivity].
  apply IH. lia.
Qed.

Lemma spawn_threads_never_raises fuel al heap G W A lambda k d Anew e :
  spawn_threads fuel al heap G W A lambda k d Anew <> Raised e.
Proof.
  unfold spawn_threads, memory_check.
  destruct (any_null al); destruct d; try discriminate;
    destruct (solve_columns fuel G W A lambda k _ 0 heap Anew zero)
      as [[[? ?] ?]|]; discriminate.
Qed.

(** C9 (as stated, refuted).  A [G] with two rows and two columns goes
    with a [W] and an [A] of one row: the sizes do not agree, and yet
    the call reports nothing and returns a result, computed from the
    first entry of [G]. *)
Lemma mismatched_G_is_accepted :
  nrow (mkMatrix 2 2 [one; zero; zero; one]) <> nrow (mkMatrix 1 1 [pow2 (-2)])
  /\ RHLasso 5 all_allocated (mkScratch [] [] [] [])
             (mkMatrix 2 2 [one; zero; zero; one])
             (mkMatrix 1 1 [pow2 (-2)]) (mkMatrix 1 1 [zero]) zero
     = Returned (mkResult (mkMatrix 1 1 [pow2 (-2)])
                          (mkMatrix 1 1 [opp (pow2 (-4))])).
Proof. split; [discriminate | vm_compute; reflexivity]. Qed.

(** C9 (amended).  When [k >= 1], [G] holds at least [k * k] entries
    and [W] and [A] at least [k * d], for the [k] and [d] taken from
    [W], the batch call does not reject mismatched declared sizes of
    [G] and [A] and reports no violation: it solves from the first
    [k * k] entries of [G] and the first [k * d] entries of [A], so that
    two such calls that agree on these entries end alike. *)
Theorem RHLasso_checks_no_dimension fuel al heap G G' W A A' lambda :
  1 <= nrow W ->
  nrow W * ncol W <= length (data W) ->
  nrow W * nrow W <= length (data G) ->
  nrow W * nrow W <= length (data G') ->
  nrow W * ncol W <= length (data A) ->
  nrow W * ncol W <= length (data A') ->
  firstn (nrow W * nrow W) (data G) = firstn (nrow W * nrow W) (data G') ->
  firstn (nrow W * ncol W) (data A) = firstn (nrow W * ncol W) (data A') ->
  RHLasso fuel al heap G W A lambda = RHLasso fuel al heap G' W A' lambda
  /\ RHLasso fuel al heap G W A lambda <> Raised BadDimensions.
Proof.
  intros _ _ _ _ _ _ HG HA. split.
  - unfold RHLasso, spawn_threads.
    destruct (memory_check al); [reflexivity|].
    destruct (ncol W) as [|d] eqn:Hd; [reflexivity|].
    destruct (any_null al); [reflexivity|].
    rewrite (solve_columns_prefix fuel (data G) (data G') (data W) (data A)
               (data A') lambda (nrow W) (S d) HG HA (S d) 0) by lia.
    reflexivity.
  - unfold RHLasso.
    pose proof (spawn_threads_never_raises fuel al heap (data G) (data W)
                  (data A) lambda (nrow W) (ncol W)
                  (repeat zero (nrow W * ncol W)) BadDimensions) as Hn.
    destruct (spawn_threads fuel al heap (data G) (data W) (data A) lambda
                (nrow W) (ncol W) (repeat zero (nrow W * ncol W)))
      as [[? ?]|e| |]; try discriminate.
    intros E. apply Hn. injection E as ->. reflexivity.
Qed.

Lemma RHLasso_checks_no_dimension_witness :
  RHLasso 5 all_allocated (mkScratch [] [] [] [])
          (mkMatrix 2 2 [one; zero; zero; one])
          (mkMatrix 1 1 [pow2 (-2)]) (mkMatrix 3 1 [zero; one; one]) zero
  = RHLasso 5 all_allocated (mkScratch [] [] [] [])
          (mkMatrix 1 1 [one])
          (mkMatrix 1 1 [pow2 (-2)]) (mkMatrix 1 1 [zero]) zero
  /\ RHLasso 5 all_allocated (mkScratch [] [] [] [])
          (mkMatrix 2 2 [one; zero; zero; one])
          (mkMatrix 1 1 [pow2 (-2)]) (mkMatrix 3 1 [zero; one; one]) zero
     <> Raised BadDimensions.
Proof.
  apply RHLasso_checks_no_dimension;
    [cbn; lia | cbn; lia | cbn; lia | cbn; lia | cbn; lia | cbn; lia
    | reflexivity | reflexivity].
Defined.

(** ** The scratch buffers do not matter *)

Section Liveness.

Variables (Hess beta : vec) (k fuel : nat).

Lemma live_idem st : live (live st) = live st.
Proof. destruct st as [? ? ? ? ? ? ? ? ? ? [|it]]; reflexivity. Qed.

Lemma live_with_tmp st t0 : live (with_tmp st t0) = live st.
Proof. reflexivity. Qed.

Lemma compute_direction_live st :
  dir_alpha (compute_direction k (live st)) = dir_alpha (compute_direction k st)
  /\ dir_d (compute_direction k (live st)) = dir_d (compute_direction k st)
  /\ dir_gtd (compute_direction k (live st)) = dir_gtd (compute_direction k st).
Proof.
  destruct st as [x0 xo g0 go t0 old f0 fm ah fh [|it]];
    unfold compute_direction, select_alpha, live; cbn [iter Nat.eqb x g x_old g_old tmp].
  - repeat split.
  - destruct (GetAlpha x0 xo g0 go k). repeat split.
Qed.

Lemma prepare_search_live st dr dr' :
  dir_d dr' = dir_d dr -> dir_gtd dr' = dir_gtd dr ->
  prepare_search Hess k (live st) dr' = prepare_search Hess k st dr.
Proof.
  intros Hd Hg. unfold prepare_search, initial_t, live.
  cbn [iter g f old_fvals]. rewrite Hd, Hg. reflexivity.
Qed.

Lemma take_step_live st dr dr' si ls :
  dir_d dr' = dir_d dr ->
  take_step Hess beta k (live st) dr' si ls = take_step Hess beta k st dr si ls.
Proof.
  intros Hd. unfold take_step, live.
  cbn [iter g f x fmin ahat fhat]. rewrite Hd. reflexivity.
Qed.

Lemma spg_iter_live st :
  option_map live_result (spg_iter Hess beta k fuel (live st))
  = option_map live_result (spg_iter Hess beta k fuel st).
Proof.
  unfold spg_iter.
  destruct (compute_direction_live st) as (_ & Hd & Hg).
  rewrite Hg.
  destruct (no_descent (dir_gtd (compute_direction k st))).
  - cbn [option_map]. unfold live_result. cbn [fst snd].
    rewrite !live_with_tmp, live_idem. reflexivity.
  - rewrite (prepare_search_live st _ _ Hd Hg).
    change (run_search fuel (live st)) with (run_search fuel st).
    destruct (run_search fuel st
                (prepare_search Hess k st (compute_direction k st)));
      [|reflexivity].
    rewrite (take_step_live st _ _ _ _ Hd). reflexivity.
Qed.

Lemma spg_iter_live_eq st st' :
  live st = live st' ->
  option_map live_result (spg_iter Hess beta k fuel st)
  = option_map live_result (spg_iter Hess beta k fuel st').
Proof.
  intros H. rewrite <- (spg_iter_live st), <- (spg_iter_live st'), H.
  reflexivity.
Qed.

Lemma spg_loop_live n st st' :
  live st = live st' ->
  option_map live (spg_loop Hess beta k n fuel st)
  = option_map live (spg_loop Hess beta k n fuel st').
Proof.
  revert st st'. induction n as [|n IH]; intros st st' H; [reflexivity|].
  cbn [spg_loop]. pose proof (spg_iter_live_eq st st' H) as E.
  destruct (spg_iter Hess beta k fuel st) as [[s1 b1]|],
           (spg_iter Hess beta k fuel st') as [[s2 b2]|];
    cbn [option_map] in E; try discriminate; [|reflexivity].
  unfold live_result in E. cbn [fst snd] in E.
  assert (E1 : live s1 = live s2) by congruence.
  assert (E2 : b1 = b2) by congruence.
  subst b2.
  destruct b1; [cbn [option_map]; rewrite E1; reflexivity|].
  apply IH, E1.
Qed.

End Liveness.

Lemma best_of_live st : best_of (live st) = best_of st.
Proof. reflexivity. Qed.

(** The outputs of a solve do not depend on what the scratch buffers
    hold on entry. *)
Lemma HCLasso_scratch fuel G w a0 lambda k sc sc' :
  option_map best_of (HCLasso fuel G w a0 lambda k sc)
  = option_map best_of (HCLasso fuel G w a0 lambda k sc').
Proof.
  rewrite !HCLasso_unfold.
  assert (E : live (init_state G w a0 lambda k sc)
              = live (init_state G w a0 lambda k sc')).
  { unfold init_state. destruct (SetInput G w lambda k) as [Hess beta].
    reflexivity. }
  pose proof (spg_loop_live (fst (SetInput G w lambda k))
                (snd (SetInput G w lambda k)) k fuel fuel _ _ E) as H.
  destruct (spg_loop _ _ k fuel fuel (init_state G w a0 lambda k sc)) as [s1|],
           (spg_loop _ _ k fuel fuel (init_state G w a0 lambda k sc')) as [s2|];
    cbn [option_map] in *; try discriminate; [|reflexivity].
  assert (E' : live s1 = live s2) by congruence.
  rewrite <- (best_of_live s1), <- (best_of_live s2), E'. reflexivity.
Qed.

(** ** The lengths of the vectors *)

Lemma daxpy_length n a (x y : vec) :
  n <= length x -> length y = n -> length (daxpy n a x y) = n.
Proof.
  intros Hx Hy. unfold daxpy.
  destruct (Nat.eqb n 0 || eqb a zero)%bool; [exact Hy|].
  rewrite length_map, length_combine, !length_firstn. lia.
Qed.

Lemma dgemv_cols_length k a (x : vec) :
  forall A y, length y = k -> k * length x <= length A ->
  length (dgemv_cols k a A x y) = k.
Proof.
  induction x as [|xj x IH]; intros A y Hy HA; [exact Hy|].
  cbn [dgemv_cols length] in *. apply IH.
  - unfold axpy_col. rewrite length_map, length_combine, length_firstn. nia.
  - rewrite length_skipn. nia.
Qed.

Lemma dgemv_length k a (A x y : vec) :
  k * k <= length A -> length (dgemv k a A x zero y) = k.
Proof.
  intros HA. unfold dgemv. change (eqb zero zero) with true. cbv iota.
  destruct (eqb a zero); [apply repeat_length|].
  apply dgemv_cols_length; [apply repeat_length|].
  rewrite length_firstn. nia.
Qed.

Lemma GetGrad_length gr Hess beta x0 k :
  k * k <= length Hess -> k <= length beta ->
  length (GetGrad gr Hess beta x0 k) = k.
Proof.
  intros HH Hb. unfold GetGrad.
  apply daxpy_length; [exact Hb | apply dgemv_length, HH].
Qed.

Lemma GetProjStep_length x0 g0 alpha k :
  length x0 = k -> length g0 = k -> length (GetProjStep x0 g0 alpha k) = k.
Proof.
  intros Hx Hg. unfold GetProjStep, ProjHyperCube, dcopy.
  apply daxpy_length; [lia|].
  rewrite length_map, length_firstn.
  rewrite daxpy_length; [lia | lia | rewrite length_firstn; lia].
Qed.

Lemma SetInput_length G w lambda k :
  k * k <= length G -> k <= length w ->
  length (fst (SetInput G w lambda k)) = k * k
  /\ length (snd (SetInput G w lambda k)) = k.
Proof.
  intros HG Hw. unfold SetInput, dcopy. cbn [fst snd]. split.
  - apply daxpy_length; [exact HG | rewrite length_firstn; lia].
  - rewrite length_map, length_firstn. lia.
Qed.

Section Sizes.

Variables (Hess beta : vec) (k fuel : nat).
Hypothesis HHess : k * k <= length Hess.
Hypothesis Hbeta : k <= length beta.

Lemma spg_iter_sized st st' b :
  sized k st -> spg_iter Hess beta k fuel st = Some (st', b) -> sized k st'.
Proof.
  intros (Hx & Hg & Ha) H.
  destruct (spg_iter_inv _ _ _ _ _ _ _ H) as [(_ & -> & _)|(_ & ls & _ & -> & _)].
  - repeat split; assumption.
  - unfold sized, with_tmp, take_step. cbn [x g ahat].
    assert (Hx' : length (daxpy k (ls_t ls) (dir_d (compute_direction k st))
                            (x st)) = k).
    { apply daxpy_length; [|exact Hx].
      unfold compute_direction. destruct (select_alpha k st). cbn [dir_d].
      rewrite GetProjStep_length; [lia | exact Hx | exact Hg]. }
    split; [exact Hx'|]. split; [apply GetGrad_length; assumption|].
    destruct (ltb _ (fmin st)); [|exact Ha].
    unfold dcopy. rewrite length_firstn. lia.
Qed.

Lemma spg_loop_sized n st st' :
  sized k st -> spg_loop Hess beta k n fuel st = Some st' -> sized k st'.
Proof.
  revert st. induction n as [|n IH]; intros st Hs H; [discriminate|].
  cbn [spg_loop] in H.
  destruct (spg_iter Hess beta k fuel st) as [[s1 b1]|] eqn:E; [|discriminate].
  pose proof (spg_iter_sized _ _ _ Hs E) as Hs1.
  destruct b1; [injection H as <-; exact Hs1 | eapply IH; eassumption].
Qed.

End Sizes.

Lemma HCLasso_ahat_length fuel G w a0 lambda k sc st :
  k * k <= length G -> k <= length w -> k <= length a0 ->
  HCLasso fuel G w a0 lambda k sc = Some st -> length (ahat st) = k.
Proof.
  intros HG Hw Ha H. rewrite HCLasso_unfold in H.
  destruct (SetInput_length G w lambda k HG Hw) as (HH & Hb).
  assert (Hs : sized k (init_state G w a0 lambda k sc)).
  { unfold init_state.
    destruct (SetInput G w lambda k) as [Hess beta]. cbn [fst snd] in *.
    unfold ObjValue, sized, dcopy. cbn [x g ahat].
    rewrite firstn_firstn, Nat.min_id, length_firstn.
    repeat split; try lia. apply GetGrad_length; lia. }
  eapply spg_loop_sized in H; [apply H | lia | lia | exact Hs].
Qed.

(** ** The output of the batch *)

Lemma write_at_next (k j : nat) (P v Anew0 : vec) :
  length P = j * k -> length v = k ->
  write_at (j * k) v (P ++ skipn (j * k) Anew0)
  = (P ++ v) ++ skipn (S j * k) Anew0.
Proof.
  intros HP Hv. unfold write_at.
  rewrite firstn_app, firstn_all2 by lia.
  replace (j * k - length P) with 0 by lia.
  cbn [firstn]. rewrite app_nil_r, skipn_app.
  rewrite (skipn_all2 P) by lia.
  replace (j * k + length v - length P) with k by lia.
  rewrite skipn_skipn. cbn [app].
  replace (k + j * k) with (S j * k) by lia.
  rewrite <- app_assoc. reflexivity.
Qed.

Lemma solve_column_scratch fuel G W A lambda k j sc :
  option_map best_of
    (HCLasso fuel G (skipn (j * k) W) (skipn (j * k) A) lambda k sc)
  = solve_column fuel G W A lambda k j.
Proof. apply HCLasso_scratch. Qed.

(** The loop over the columns, against the columns solved one by one. *)
Lemma solve_columns_spec fuel G W A lambda k d Anew0 :
  k * k <= length G -> k * d <= length W -> k * d <= length A ->
  forall n j sc P loss,
  j + n = d -> length P = j * k ->
  outputs (solve_columns fuel G W A lambda k n j sc
             (P ++ skipn (j * k) Anew0) loss)
  = match collect (map (solve_column fuel G W A lambda k) (seq j n)) with
    | Some rs => Some ((P ++ concat (map fst rs)) ++ skipn (d * k) Anew0,
                       fold_left add (map snd rs) loss)
    | None => None
    end.
Proof.
  intros HG HW HA. induction n as [|n IH]; intros j sc P loss Hj HP.
  - cbn. rewrite app_nil_r. replace d with j by lia. reflexivity.
  - cbn [solve_columns seq map collect].
    rewrite <- (solve_column_scratch fuel G W A lambda k j sc).
    destruct (HCLasso fuel G (skipn (j * k) W) (skipn (j * k) A) lambda k sc)
      as [st|] eqn:E; [|reflexivity].
    cbn [option_map].
    assert (Hlen : length (ahat st) = k).
    { apply (HCLasso_ahat_length _ _ _ _ _ _ _ _ HG) in E;
        [exact E | | ]; rewrite length_skipn; nia. }
    rewrite (write_at_next k j P (ahat st) Anew0 HP Hlen).
    rewrite (IH (S j) (scratch_of st) (P ++ ahat st)
                (add loss (fhat st)))
      by (try rewrite length_app; lia).
    destruct (collect (map (solve_column fuel G W A lambda k) (seq (S j) n)))
      as [rs|]; [|reflexivity].
    unfold best_of. cbn [map fst snd concat fold_left].
    rewrite (app_assoc P (ahat st) (concat (map fst rs))). reflexivity.
Qed.

Lemma col_concat (k : nat) (ls : list vec) :
  Forall (fun l => length l = k) ls ->
  forall j, j < length ls -> col k j (concat ls) = nth j ls [].
Proof.
  unfold col. induction 1 as [|l ls Hl _ IH]; intros j Hj; [cbn in Hj; lia|].
  cbn [concat nth length] in *. destruct j as [|j].
  - cbn [Nat.mul skipn]. rewrite firstn_app, firstn_all2 by lia.
    replace (k - length l) with 0 by lia. cbn [firstn]. apply app_nil_r.
  - rewrite skipn_app, skipn_all2 by lia.
    replace (S j * k - length l) with (j * k) by lia.
    cbn [app]. apply IH. lia.
Qed.

Lemma collect_spec {T : Type} (l : list (option T)) (rs : list T) :
  collect l = Some rs -> l = map Some rs.
Proof.
  revert rs. induction l as [|[a|] l IH]; intros rs H; cbn in H.
  - injection H as <-. reflexivity.
  - destruct (collect l) as [r|]; [|discriminate].
    injection H as <-. cbn. rewrite (IH r eq_refl). reflexivity.
  - discriminate.
Qed.

Lemma solve_column_length fuel G W A lambda k d j a fh :
  k * k <= length G -> k * d <= length W -> k * d <= length A -> j < d ->
  solve_column fuel G W A lambda k j = Some (a, fh) -> length a = k.
Proof.
  intros HG HW HA Hj H. unfold solve_column in H.
  destruct (HCLasso fuel G (skipn (j * k) W) (skipn (j * k) A) lambda k
              empty_scratch) as [st|] eqn:E; [|discriminate].
  cbn in H. injection H as <- _.
  apply (HCLasso_ahat_length _ _ _ _ _ _ _ _ HG) in E;
    [exact E | | ]; rewrite length_skipn; nia.
Qed.

Lemma collect_nth fuel G W A lambda k d rs :
  collect (map (solve_column fuel G W A lambda k) (seq 0 d)) = Some rs ->
  length rs = d
  /\ forall j, j < d ->
       solve_column fuel G W A lambda k j = Some (nth j rs ([], zero)).
Proof.
  intros H. apply collect_spec in H.
  assert (Hl : length rs = d).
  { apply (f_equal (@length _)) in H.
    rewrite !length_map, length_seq in H. lia. }
  split; [exact Hl|]. intros j Hj.
  apply (f_equal (fun l => nth j l None)) in H. cbv beta in H.
  rewrite (@nth_indep _ (map (solve_column fuel G W A lambda k) (seq 0 d)) j
             None (solve_column fuel G W A lambda k 0)) in H
    by (rewrite length_map, length_seq; exact Hj).
  rewrite map_nth, seq_nth in H by exact Hj.
  rewrite (@nth_indep _ (map Some rs) j None (Some (@nil double, zero))) in H
    by (rewrite length_map; lia).
  rewrite map_nth in H. exact H.
Qed.

(** C7.  The batch call does what solving every column on its own
    does: it has a result exactly when every column has one; column [j]
    of the returned [Anew] is then the best iterate of the solve of
    column [j], whatever the scratch buffers held, and the returned
    loss is the sum of the best values of the columns [0 .. d-1], added
    up in this order from zero. *)
Theorem batch_output fuel heap G W A lambda :
  nrow W * nrow W <= length (data G) ->
  nrow W * ncol W <= length (data W) ->
  nrow W * ncol W <= length (data A) ->
  RHLasso fuel all_allocated heap G W A lambda
  = batch_spec fuel (data G) (data W) (data A) lambda (nrow W) (ncol W)
  /\ forall r,
       RHLasso fuel all_allocated heap G W A lambda = Returned r ->
       exists rs,
         length rs = ncol W
         /\ (forall j, j < ncol W ->
               solve_column fuel (data G) (data W) (data A) lambda (nrow W) j
               = Some (nth j rs ([], zero))
               /\ col (nrow W) j (data (res_A r)) = fst (nth j rs ([], zero)))
         /\ data (res_Loss r) = [fold_left add (map snd rs) zero].
Proof.
  intros HG HW HA.
  assert (Heq : RHLasso fuel all_allocated heap G W A lambda
                = batch_spec fuel (data G) (data W) (data A) lambda
                             (nrow W) (ncol W)).
  { unfold RHLasso, spawn_threads, batch_spec.
    change (memory_check all_allocated) with (@None error).
    change (any_null all_allocated) with false.
    set (k := nrow W) in *. set (d := ncol W) in *.
    pose proof (solve_columns_spec fuel (data G) (data W) (data A) lambda k d
                  (repeat zero (k * d)) HG HW HA d 0 heap [] zero
                  eq_refl eq_refl) as Hs.
    change ([] ++ skipn (0 * k) (repeat zero (k * d)))
      with (repeat zero (k * d)) in Hs.
    rewrite skipn_all2 in Hs by (rewrite repeat_length; lia).
    destruct d as [|d'].
    - cbn. rewrite Nat.mul_0_r. reflexivity.
    - cbv iota.
      destruct (solve_columns fuel (data G) (data W) (data A) lambda k (S d')
                  0 heap (repeat zero (k * S d')) zero) as [[[an lo] s]|];
        destruct (collect (map (solve_column fuel (data G) (data W) (data A)
                                             lambda k) (seq 0 (S d'))))
          as [rs|]; cbn [outputs option_map fst snd] in Hs;
        try discriminate; [|reflexivity].
      injection Hs as -> ->. rewrite app_nil_r. reflexivity. }
  split; [exact Heq|].
  intros r Hr. rewrite Heq in Hr. unfold batch_spec in Hr.
  destruct (collect (map (solve_column fuel (data G) (data W) (data A) lambda
                                       (nrow W)) (seq 0 (ncol W))))
    as [rs|] eqn:Hc; [|discriminate].
  injection Hr as <-. cbn [res_A res_Loss data].
  destruct (collect_nth _ _ _ _ _ _ _ _ Hc) as (Hl & Hn).
  exists rs. split; [exact Hl|]. split; [|reflexivity].
  intros j Hj. split; [apply Hn, Hj|].
  rewrite col_concat.
  - change (@nil double) with (fst (@nil double, zero)). apply map_nth.
  - apply Forall_nth. intros i dflt Hi. rewrite length_map in Hi.
    rewrite nth_indep with (d' := fst ((@nil double, zero) : vec * double))
      by (rewrite length_map; exact Hi).
    rewrite map_nth.
    destruct (nth i rs ([], zero)) as [a fh] eqn:En.
    apply (solve_column_length fuel (data G) (data W) (data A) lambda
             (nrow W) (ncol W) i a fh HG HW HA); [lia|].
    rewrite <- En. apply Hn. lia.
  - rewrite length_map. lia.
Qed.

Lemma batch_output_witness :
  RHLasso 30 all_allocated (mkScratch [one] [two] [half] [])
          (mkMatrix 1 1 [one]) (mkMatrix 1 2 [pow2 (-2); two])
          (mkMatrix 1 2 [zero; half]) zero
  = Returned (mkResult (mkMatrix 1 2 [pow2 (-2); one])
                       (mkMatrix 1 1 [opp (add (pow2 (-4)) (of_Z 3))])).
Proof.
  destruct (batch_output 30 (mkScratch [one] [two] [half] [])
              (mkMatrix 1 1 [one]) (mkMatrix 1 2 [pow2 (-2); two])
              (mkMatrix 1 2 [zero; half]) zero) as [H _];
    [cbn; lia | cbn; lia | cbn; lia |].
  rewrite H. vm_compute. reflexivity.
Defined.

(** * Further properties of the routines *)

(** ** Comparisons *)

Lemma compare_antisym (a b : double) :
  SFcompare b a = option_map CompOpp (SFcompare a b).
Proof.
  destruct a as [sa|sa| |sa ma ea], b as [sb|sb| |sb mb eb];
    try reflexivity;
    try (destruct sa; reflexivity);
    try (destruct sb; reflexivity);
    try (destruct sa, sb; reflexivity).
  unfold SFcompare. cbn [option_map].
  fold (Pos.compare ma mb). fold (Pos.compare mb ma).
  rewrite (Z.compare_antisym ea eb), (Pos.compare_antisym ma mb).
  destruct sa, sb; try reflexivity;
    destruct (Z.compare ea eb); cbn [CompOpp]; try reflexivity;
    destruct (Pos.compare ma mb); reflexivity.
Qed.

(** Of two values that are not NaN, one compares below the other or
    the other below-or-equal to the one. *)
Lemma ltb_false_leb (a b : double) :
  is_nan a = false -> is_nan b = false -> ltb a b = false -> leb b a = true.
Proof.
  unfold ltb, leb, SFltb, SFleb. rewrite (compare_antisym a b).
  destruct a as [sa|sa| |sa ma ea], b as [sb|sb| |sb mb eb];
    try discriminate; intros _ _;
    destruct (SFcompare _ _) as [[| |]|] eqn:E;
    try discriminate; try reflexivity;
    cbn in E; try (destruct sa; discriminate); try (destruct sb; discriminate);
    try (destruct sa, sb; discriminate); discriminate.
Qed.

Lemma ltb_leb_false (a b : double) : ltb a b = true -> leb b a = false.
Proof.
  unfold ltb, leb, SFltb, SFleb. rewrite (compare_antisym a b).
  destruct (SFcompare a b) as [[| |]|]; try discriminate. reflexivity.
Qed.

(** ** The projection on the hypercube *)

Lemma clamp01_range (a : double) :
  is_nan a = false -> in01 (clamp01 a) = true.
Proof.
  intros Hn. unfold clamp01.
  destruct (ltb a zero) eqn:H0; [reflexivity|].
  destruct (ltb one a) eqn:H1; [reflexivity|].
  unfold in01.
  rewrite (ltb_false_leb a zero Hn eq_refl H0).
  rewrite (ltb_false_leb one a eq_refl Hn H1). reflexivity.
Qed.

Lemma clamp01_nan (a : double) : is_nan a = true -> clamp01 a = nan.
Proof. destruct a; try discriminate. reflexivity. Qed.

Lemma clamp01_fixes (a : double) : in01 a = true -> clamp01 a = a.
Proof.
  unfold in01, clamp01. intros H. apply andb_prop in H as [H0 H1].
  destruct (ltb a zero) eqn:E0.
  - rewrite (ltb_leb_false a zero E0) in H0. discriminate.
  - destruct (ltb one a) eqn:E1; [|reflexivity].
    rewrite (ltb_leb_false one a E1) in H1. discriminate.
Qed.

Lemma clamp01_idem (a : double) : clamp01 (clamp01 a) = clamp01 a.
Proof.
  destruct (is_nan a) eqn:Hn.
  - rewrite (clamp01_nan a Hn). reflexivity.
  - apply clamp01_fixes, clamp01_range, Hn.
Qed.

(** [ProjHyperCube] sends every coordinate that is not NaN into
    [[0,1]], keeps a NaN coordinate as NaN, and treats [m] coordinates,
    or all of them when there are fewer. *)
Theorem ProjHyperCube_range (v : vec) (m : nat) :
  length (ProjHyperCube v m) = Nat.min m (length v)
  /\ forall i, i < Nat.min m (length v) ->
       if is_nan (nth i v zero)
       then nth i (ProjHyperCube v m) zero = nan
       else in01 (nth i (ProjHyperCube v m) zero) = true.
Proof.
  unfold ProjHyperCube. split; [rewrite length_map; apply length_firstn|].
  intros i Hi.
  assert (E : nth i (map clamp01 (firstn m v)) zero
              = clamp01 (nth i v zero)).
  { rewrite (@nth_indep _ (map clamp01 (firstn m v)) i zero (clamp01 zero))
      by (rewrite length_map, length_firstn; exact Hi).
    rewrite map_nth, nth_firstn.
    replace (Nat.ltb i m) with true by (symmetry; apply Nat.ltb_lt; lia).
    reflexivity. }
  rewrite E. destruct (is_nan (nth i v zero)) eqn:Hn.
  - apply clamp01_nan, Hn.
  - apply clamp01_range, Hn.
Qed.

Lemma map_clamp01_fixes (v : vec) :
  Forall (fun a => in01 a = true) v -> map clamp01 v = v.
Proof.
  induction 1 as [|a l Ha _ IH]; [reflexivity|].
  cbn [map]. rewrite (clamp01_fixes a Ha), IH. reflexivity.
Qed.

(** [ProjHyperCube] is a projection: applying it twice is applying it
    once, and a vector of [m] coordinates that all lie in [[0,1]] is
    left as it is. *)
Theorem ProjHyperCube_projection (v : vec) (m : nat) :
  ProjHyperCube (ProjHyperCube v m) m = ProjHyperCube v m
  /\ (length v = m -> Forall (fun a => in01 a = true) v ->
      ProjHyperCube v m = v).
Proof.
  unfold ProjHyperCube. split.
  - rewrite firstn_map, firstn_firstn, Nat.min_id, map_map.
    apply map_ext. intros a. apply clamp01_idem.
  - intros Hl Hall. rewrite firstn_all2 by lia.
    apply map_clamp01_fixes, Hall.
Qed.

Lemma ProjHyperCube_projection_witness :
  ProjHyperCube [zero; half; one] 3 = [zero; half; one].
Proof.
  apply (ProjHyperCube_projection [zero; half; one] 3); [reflexivity|].
  repeat constructor.
Defined.

Lemma ProjHyperCube_range_witness :
  in01 (nth 1 (ProjHyperCube [opp two; of_Z 3; nan] 2) zero) = true.
Proof.
  apply (proj2 (ProjHyperCube_range [opp two; of_Z 3; nan] 2) 1).
  cbn. lia.
Defined.

(** ** [dabs] *)

(** [dabs] gives the magnitude: the sign bit is cleared, as by the
    library's [fabs], except for the negative zero, which does not
    compare below zero and is returned as it is; the result never
    compares below zero. *)
Theorem dabs_magnitude (a : double) :
  dabs a = (if eqb a zero then a else abs a)
  /\ ltb (dabs a) zero = false.
Proof.
  destruct a as [s|s| |s m e]; try (destruct s; split; reflexivity).
  split; reflexivity.
Qed.

(** ** The guard of the step length *)

(** After the guard the step length is the quotient itself or [1]; it
    is NaN exactly when the quotient is, and otherwise it lies above
    [1e-10] and not above [1e10]. *)
Theorem safeguard_range (a : double) :
  (safeguard a = a \/ safeguard a = one)
  /\ is_nan (safeguard a) = is_nan a
  /\ (is_nan a = false ->
      ltb OPT_TOL (safeguard a) = true /\ leb (safeguard a) ALPHA_MAX = true).
Proof.
  unfold safeguard.
  destruct (leb a OPT_TOL) eqn:Hlo; cbn [orb].
  - split; [right; reflexivity|]. split.
    + destruct a; try reflexivity. discriminate Hlo.
    + intros _. split; vm_compute; reflexivity.
  - destruct (ltb ALPHA_MAX a) eqn:Hhi.
    + split; [right; reflexivity|]. split.
      * destruct a; try reflexivity.
        rewrite ltb_nan_r in Hhi. discriminate Hhi.
      * intros _. split; vm_compute; reflexivity.
    + split; [left; reflexivity|]. split; [reflexivity|].
      intros Hn. split.
      * destruct (ltb OPT_TOL a) eqn:E; [reflexivity|].
        rewrite (ltb_false_leb OPT_TOL a eq_refl Hn E) in Hlo.
        discriminate Hlo.
      * apply (ltb_false_leb ALPHA_MAX a eq_refl Hn Hhi).
Qed.

Lemma safeguard_range_witness :
  ltb OPT_TOL (safeguard (pow2 (-40))) = true
  /\ leb (safeguard (pow2 (-40))) ALPHA_MAX = true.
Proof.
  apply (proj2 (proj2 (safeguard_range (pow2 (-40))))). reflexivity.
Defined.

(** ** Signs *)

Lemma binary_round_aux_sign_clear (mx ex : Z) (lx : location) :
  sign_clear (binary_round_aux prec emax false mx ex lx) = true.
Proof.
  unfold binary_round_aux.
  destruct (shr_fexp prec emax mx ex lx) as [mrs e'].
  destruct (shr_fexp prec emax _ e' loc_Exact) as [mrs' e''].
  destruct (shr_m mrs') as [|m|m]; try reflexivity.
  destruct (Z.leb e'' (Z.sub emax prec)); reflexivity.
Qed.

Lemma add_sign_clear (a b : double) :
  sign_clear a = true -> sign_clear b = true -> sign_clear (add a b) = true.
Proof.
  destruct a as [sa|sa| |sa ma ea], b as [sb|sb| |sb mb eb];
    try (destruct sa; try discriminate); try (destruct sb; try discriminate);
    try reflexivity.
  intros _ _. unfold add, SFadd. cbn [cond_Zopp].
  set (ez := Z.min ea eb).
  set (p := fst (shl_align ma ea ez)). set (q := fst (shl_align mb eb ez)).
  change (Z.add (Zpos p) (Zpos q)) with (Zpos (Pos.add p q)).
  unfold binary_normalize, binary_round.
  destruct (shl_align _ ez _) as [mz ez'].
  apply binary_round_aux_sign_clear.
Qed.

Lemma abs_sign_clear (a : double) : sign_clear (abs a) = true.
Proof. destruct a; reflexivity. Qed.

Lemma dasum_sign_clear (n : nat) (v : vec) : sign_clear (dasum n v) = true.
Proof.
  unfold dasum.
  assert (H : forall l acc, sign_clear acc = true ->
            sign_clear (fold_left (fun a xi => add a (abs xi)) l acc) = true).
  { induction l as [|b l IH]; intros acc Ha; [exact Ha|].
    cbn [fold_left]. apply IH, add_sign_clear; [exact Ha|].
    apply abs_sign_clear. }
  apply H. reflexivity.
Qed.

Lemma sign_clear_not_below_zero (a : double) :
  sign_clear a = true -> ltb a zero = false.
Proof. destruct a as [s|s| |s m e]; try reflexivity; destruct s; try discriminate; reflexivity. Qed.

Lemma sign_clear_above_zero (a : double) :
  sign_clear a = true -> is_nan a = false -> leb zero a = true.
Proof.
  destruct a as [s|s| |s m e]; try discriminate;
    destruct s; try discriminate; reflexivity.
Qed.

Lemma div_one_sign_clear (a : double) :
  sign_clear a = true -> sign_clear (div one a) = true.
Proof.
  destruct a as [s|s| |s m e]; try reflexivity;
    destruct s; try discriminate; try reflexivity.
  intros _. unfold div, SFdiv, one.
  change (of_Z 1) with (S754_finite false 4503599627370496 (-52)).
  cbv iota beta.
  destruct (SFdiv_core_binary prec emax _ _ _ _) as [[mz ez] lz].
  apply binary_round_aux_sign_clear.
Qed.

(** The one-norm computed by [NormOne] has a clear sign bit (or is
    NaN): it never compares below zero. *)
Theorem NormOne_not_negative (v : vec) (k : nat) :
  sign_clear (NormOne v k) = true /\ ltb (NormOne v k) zero = false.
Proof.
  unfold NormOne. split; [apply dasum_sign_clear|].
  apply sign_clear_not_below_zero, dasum_sign_clear.
Qed.

(** The first guess of the step length, [min(1, 1/|g|_1)] at the first
    iteration and [1] afterwards, lies in [[0,1]], unless it is NaN. *)
Theorem initial_t_range (k : nat) (st : state) :
  in01 (initial_t k st) = true \/ is_nan (initial_t k st) = true.
Proof.
  unfold initial_t.
  destruct (Nat.eqb (iter st) 0); [|left; reflexivity].
  set (t := div one (NormOne (g st) k)).
  assert (Hs : sign_clear t = true)
    by (apply div_one_sign_clear, dasum_sign_clear).
  destruct (ltb one t) eqn:H1; [left; reflexivity|].
  destruct (is_nan t) eqn:Hn; [right; reflexivity|]. left.
  unfold in01. rewrite (sign_clear_above_zero t Hs Hn).
  rewrite (ltb_false_leb one t eq_refl Hn H1). reflexivity.
Qed.

(** ** The memory and the iteration cap along a solve *)

(** Along a solve the memory of the line search holds the objective
    values recorded so far, the last ten of them once there are more,
    oldest first, and [-DBL_MAX] in the slots not yet used; the
    iteration counter is the number of recorded values. *)
Theorem memory_holds_last_values G w a0 lambda k sc Hess beta fuel fs st :
  spg_run Hess beta k fuel (init_state G w a0 lambda k sc) fs st ->
  iter st = length fs
  /\ old_fvals st = lastn MEM_OLD_VALUES fs
                    ++ repeat (opp DBL_MAX) (MEM_OLD_VALUES - length fs)
  /\ length (old_fvals st) = MEM_OLD_VALUES.
Proof.
  intros Hrun.
  destruct (init_state_best G w a0 lambda k sc) as (_ & _ & Hi0 & Ho0).
  destruct (spg_run_memory _ _ _ _ _ _ _ Hrun Hi0 Ho0) as (Hit & Hold).
  split; [exact Hit|]. split; [exact Hold|].
  rewrite Hold. apply window_length.
Qed.

Lemma memory_holds_last_values_witness :
  let G := [one; zero; zero; one] in
  let w := [zero; zero] in
  let a0 := [zero; half] in
  let Hess := fst (SetInput G w one 2) in
  let beta := snd (SetInput G w one 2) in
  let st0 := init_state G w a0 one 2 empty_scratch in
  let st1 := state_after (spg_iter Hess beta 2 5 st0) st0 in
  iter st1 = 1
  /\ old_fvals st1 = f st0 :: repeat (opp DBL_MAX) 9
  /\ length (old_fvals st1) = MEM_OLD_VALUES.
Proof.
  intros G w a0 Hess beta st0 st1.
  apply (memory_holds_last_values G w a0 one 2 empty_scratch Hess beta 5
           ([] ++ [f st0]) st1).
  eapply run_step; [apply run_nil | vm_compute; reflexivity].
Defined.

Lemma spg_iter_continue_cap Hess beta k fuel st st' :
  spg_iter Hess beta k fuel st = Some (st', false) -> iter st' <= itermax.
Proof.
  intros H.
  destruct (spg_iter_inv _ _ _ _ _ _ _ H) as [(_ & _ & Hb)|(_ & ls & _ & -> & Hb)];
    [discriminate|].
  unfold check_convergence in Hb. symmetry in Hb.
  apply orb_false_iff in Hb as [_ Hb]. unfold stop_itermax in Hb.
  apply Nat.ltb_ge in Hb. exact Hb.
Qed.

(** The body of the SPG loop is entered at most 501 times: a state from
    which the loop goes on was reached by at most 500 iterations. *)
Theorem iteration_cap G w a0 lambda k sc Hess beta fuel fs st :
  spg_run Hess beta k fuel (init_state G w a0 lambda k sc) fs st ->
  length fs <= itermax /\ iter st <= itermax.
Proof.
  intros Hrun.
  destruct (init_state_best G w a0 lambda k sc) as (_ & _ & Hi0 & Ho0).
  destruct (spg_run_memory _ _ _ _ _ _ _ Hrun Hi0 Ho0) as (Hit & _).
  rewrite <- Hit.
  assert (H : iter st <= itermax); [|split; exact H].
  inversion Hrun as [|? ? st' ? _ Hstep]; subst.
  - rewrite Hi0. unfold itermax. lia.
  - eapply spg_iter_continue_cap. exact Hstep.
Qed.

Lemma iteration_cap_witness :
  let G := [one; zero; zero; one] in
  let w := [zero; zero] in
  let a0 := [zero; half] in
  let Hess := fst (SetInput G w one 2) in
  let beta := snd (SetInput G w one 2) in
  let st0 := init_state G w a0 one 2 empty_scratch in
  let st1 := state_after (spg_iter Hess beta 2 5 st0) st0 in
  length ([] ++ [f st0]) <= itermax /\ iter st1 <= itermax.
Proof.
  intros G w a0 Hess beta st0 st1.
  apply (iteration_cap G w a0 one 2 empty_scratch Hess beta 5
           ([] ++ [f st0]) st1).
  eapply run_step; [apply run_nil | vm_compute; reflexivity].
Defined.

(** ** When the loops end *)

(** After 1075 halvings the factor of the line search has gone down to
    zero. *)
Lemma halved_underflow : halved one 1075 = zero.
Proof. vm_compute. reflexivity. Qed.

Lemma mul_zero_small (N : double) :
  is_finite N = true -> ltb (mul N zero) OPT_TOL = true.
Proof.
  destruct N as [s|s| |s m e]; try discriminate; intros _;
    destruct s; reflexivity.
Qed.

Lemma mul_zero_half : mul zero half = zero.
Proof. reflexivity. Qed.

Lemma line_search_from fv f_ref Linear Quad Norm1_dx t :
  is_finite Norm1_dx = true ->
  forall m j fuel, j + m = 1075 -> m < fuel ->
  line_search fuel fv f_ref Linear Quad Norm1_dx t (halved one j) <> None.
Proof.
  intros HN. induction m as [|m IH]; intros j fuel Hj Hf;
    (destruct fuel as [|fuel]; [lia|]); cbn [line_search].
  - destruct (sufficient_descent _ _ _ _ _); [discriminate|].
    replace j with 1075 by lia. rewrite halved_underflow, mul_zero_half.
    unfold step_too_small. rewrite (mul_zero_small _ HN). discriminate.
  - destruct (sufficient_descent _ _ _ _ _); [discriminate|].
    destruct (step_too_small _ _ _); [discriminate|].
    apply (IH (S j) fuel); lia.
Qed.

(** The backtracking loop ends within 1076 trials whenever
    [Norm1_dx = t * |d|_1] is neither NaN nor infinite: by then the
    halved factor has underflowed to zero and the test on the step
    size holds.  It ends after one refused trial when [t] is zero. *)
Theorem line_search_ends fuel fv f_ref Linear Quad Norm1_dx t :
  (is_finite Norm1_dx = true /\ 1075 < fuel) \/ (eqb t zero = true /\ 0 < fuel) ->
  exists r, line_search fuel fv f_ref Linear Quad Norm1_dx t one = Some r.
Proof.
  intros [[HN Hf]|[Ht Hf]].
  - pose proof (line_search_from fv f_ref Linear Quad Norm1_dx t HN
                  1075 0 fuel eq_refl Hf) as H.
    change (halved one 0) with one in H.
    destruct (line_search fuel fv f_ref Linear Quad Norm1_dx t one) as [r|];
      [exists r; reflexivity | contradiction].
  - destruct fuel as [|fuel]; [lia|]. cbn [line_search].
    destruct (sufficient_descent _ _ _ _ _); [eexists; reflexivity|].
    unfold step_too_small. rewrite Ht, orb_true_r. eexists; reflexivity.
Qed.

Lemma line_search_ends_witness :
  exists r,
    line_search 1076 zero zero (opp one) (of_Z 4) one one one = Some r.
Proof.
  apply line_search_ends. left. split; [reflexivity | lia].
Defined.

Lemma spg_loop_total Hess beta k fuel G w a0 lambda sc :
  1075 < fuel ->
  (forall fs st,
     spg_run Hess beta k fuel (init_state G w a0 lambda k sc) fs st ->
     no_descent (dir_gtd (compute_direction k st)) = false ->
     is_finite (si_Norm1_dx (prepare_search Hess k st (compute_direction k st)))
     = true) ->
  forall n fs st,
  spg_run Hess beta k fuel (init_state G w a0 lambda k sc) fs st ->
  itermax + 1 < iter st + n ->
  spg_loop Hess beta k n fuel st <> None.
Proof.
  intros Hf Hfin. induction n as [|n IH]; intros fs st Hrun Hn.
  - destruct (init_state_best G w a0 lambda k sc) as (_ & _ & Hi0 & Ho0).
    destruct (spg_run_memory _ _ _ _ _ _ _ Hrun Hi0 Ho0) as (Hit & _).
    assert (Hcap : iter st <= itermax).
    { inversion Hrun as [|? ? st' ? _ Hstep]; subst.
      - rewrite Hi0. unfold itermax. lia.
      - eapply spg_iter_continue_cap. exact Hstep. }
    lia.
  - cbn [spg_loop].
    destruct (spg_iter Hess beta k fuel st) as [[st' b]|] eqn:E.
    + destruct b; [discriminate|].
      apply (IH (fs ++ [f st]) st').
      * eapply run_step; eassumption.
      * destruct (spg_iter_continue _ _ _ _ _ _ E) as (_ & ->). lia.
    + exfalso. unfold spg_iter in E.
      destruct (no_descent (dir_gtd (compute_direction k st))) eqn:Hnd;
        [discriminate|].
      pose proof (line_search_from (f st)
                    (si_f_ref (prepare_search Hess k st (compute_direction k st)))
                    (si_Linear (prepare_search Hess k st (compute_direction k st)))
                    (si_Quad (prepare_search Hess k st (compute_direction k st)))
                    _ (si_t (prepare_search Hess k st (compute_direction k st)))
                    (Hfin fs st Hrun Hnd) 1075 0 fuel eq_refl Hf) as Hls.
      change (halved one 0) with one in Hls. unfold run_search in E.
      destruct (line_search fuel _ _ _ _ _ _ one); [discriminate|].
      apply Hls. reflexivity.
Qed.

(** A solve ends, with fuel 1076 or more, as soon as the step
    [Norm1_dx = t * |d|_1] of every line search it enters is neither
    NaN nor infinite: the SPG loop is cut at 501 iterations and each
    line search at 1076 trials. *)
Theorem HCLasso_ends fuel G w a0 lambda k sc :
  1075 < fuel ->
  (forall fs st,
     spg_run (fst (SetInput G w lambda k)) (snd (SetInput G w lambda k)) k fuel
             (init_state G w a0 lambda k sc) fs st ->
     no_descent (dir_gtd (compute_direction k st)) = false ->
     is_finite
       (si_Norm1_dx (prepare_search (fst (SetInput G w lambda k)) k st
                                    (compute_direction k st))) = true) ->
  exists st, HCLasso fuel G w a0 lambda k sc = Some st.
Proof.
  intros Hf Hfin. rewrite HCLasso_unfold.
  pose proof (spg_loop_total _ _ k fuel G w a0 lambda sc Hf Hfin fuel []
                (init_state G w a0 lambda k sc)
                (run_nil _ _ _ _ _)) as H.
  destruct (spg_loop _ _ k fuel fuel (init_state G w a0 lambda k sc)) as [st|].
  - exists st. reflexivity.
  - exfalso. apply H; [|reflexivity].
    destruct (init_state_best G w a0 lambda k sc) as (_ & _ & -> & _).
    unfold itermax. lia.
Qed.

(** A run that starts at a state whose iteration leaves the loop stays
    at that state. *)
Lemma spg_run_of_last Hess beta k fuel st0 s fs st :
  spg_iter Hess beta k fuel st0 = Some (s, true) ->
  spg_run Hess beta k fuel st0 fs st -> st = st0.
Proof.
  intros Hstop Hrun. induction Hrun as [|st0 fs st' st'' Hrun IH Hstep];
    [reflexivity|].
  rewrite (IH Hstop) in Hstep. rewrite Hstop in Hstep. discriminate.
Qed.

Lemma HCLasso_ends_witness :
  exists st, HCLasso 1076 [one] [pow2 (-2)] [zero] zero 1 empty_scratch = Some st.
Proof.
  apply HCLasso_ends; [lia|].
  intros fs st Hrun _.
  assert (Hstop : exists s,
            spg_iter (fst (SetInput [one] [pow2 (-2)] zero 1))
                     (snd (SetInput [one] [pow2 (-2)] zero 1)) 1 1076
                     (init_state [one] [pow2 (-2)] [zero] zero 1 empty_scratch)
            = Some (s, true)) by (eexists; vm_compute; reflexivity).
  destruct Hstop as [s Hstop].
  rewrite (spg_run_of_last _ _ _ _ _ _ _ _ Hstop Hrun).
  vm_compute. reflexivity.
Defined.

(** ** What the fresh scratch memory holds *)

Lemma solve_columns_scratch fuel G W A lambda k :
  forall n j sc sc' Anew loss,
  outputs (solve_columns fuel G W A lambda k n j sc Anew loss)
  = outputs (solve_columns fuel G W A lambda k n j sc' Anew loss).
Proof.
  induction n as [|n IH]; intros j sc sc' Anew loss; [reflexivity|].
  cbn [solve_columns].
  pose proof (HCLasso_scratch fuel G (skipn (j * k) W) (skipn (j * k) A)
                lambda k sc sc') as E.
  destruct (HCLasso fuel G (skipn (j * k) W) (skipn (j * k) A) lambda k sc)
    as [st|],
    (HCLasso fuel G (skipn (j * k) W) (skipn (j * k) A) lambda k sc')
    as [st'|]; cbn [option_map] in E; try discriminate; [|reflexivity].
  unfold best_of in E.
  assert (Ea : ahat st = ahat st') by congruence.
  assert (Ef : fhat st = fhat st') by congruence.
  rewrite Ea, Ef. apply IH.
Qed.

(** The batch call reads nothing of what [malloc] left in the scratch
    blocks: whatever they hold, the call ends in the same way, with the
    same [Anew] and the same loss. *)
Theorem RHLasso_ignores_fresh_memory fuel al heap heap' Ginp Winp Ainp lambda :
  RHLasso fuel al heap Ginp Winp Ainp lambda
  = RHLasso fuel al heap' Ginp Winp Ainp lambda.
Proof.
  unfold RHLasso, spawn_threads.
  destruct (memory_check al); [reflexivity|].
  destruct (ncol Winp) as [|d]; [reflexivity|].
  destruct (any_null al); [reflexivity|].
  pose proof (solve_columns_scratch fuel (data Ginp) (data Winp) (data Ainp)
                lambda (nrow Winp) (S d) 0 heap heap'
                (repeat zero (nrow Winp * S d)) zero) as E.
  destruct (solve_columns fuel _ _ _ lambda _ (S d) 0 heap _ zero)
    as [[[a l] s]|],
    (solve_columns fuel _ _ _ lambda _ (S d) 0 heap' _ zero)
    as [[[a' l'] s']|]; cbn in E; try discriminate; [|reflexivity].
  injection E as -> ->. reflexivity.
Qed.

(** ** A starting point without descent *)

(** When the projected gradient step at the starting point gives no
    descent ([gtd > -optTol]), the solve stops in its first iteration
    and hands back the starting point, the first [k] entries of [a0] as
    they are, with the objective value there. *)
Theorem start_without_descent_is_returned fuel G w a0 lambda k sc :
  no_descent (dir_gtd (compute_direction k (init_state G w a0 lambda k sc)))
  = true ->
  exists st,
    HCLasso (S fuel) G w a0 lambda k sc = Some st
    /\ ahat st = firstn k a0
    /\ fhat st = f (init_state G w a0 lambda k sc)
    /\ iter st = 0.
Proof.
  intros Hnd. rewrite HCLasso_unfold. cbn [spg_loop]. unfold spg_iter.
  rewrite Hnd. eexists. split; [reflexivity|].
  unfold init_state. destruct (SetInput G w lambda k) as [Hess beta].
  unfold ObjValue, dcopy. cbn [with_tmp ahat fhat f iter].
  rewrite firstn_firstn, Nat.min_id. repeat split.
Qed.

Lemma start_without_descent_is_returned_witness :
  exists st,
    HCLasso 1 [one] [two] [two] zero 1 empty_scratch = Some st
    /\ ahat st = firstn 1 [two]
    /\ fhat st = f (init_state [one] [two] [two] zero 1 empty_scratch)
    /\ iter st = 0.
Proof.
  apply (start_without_descent_is_returned 0 [one] [two] [two] zero 1
           empty_scratch).
  vm_compute. reflexivity.
Defined.

(** ** The result of a solve against its starting point *)

(** A solve that ends went through iterations that stay in the loop and
    one last iteration that leaves it. *)
Lemma spg_loop_run Hess beta k fuel :
  forall n st st',
  spg_loop Hess beta k n fuel st = Some st' ->
  exists fs st2,
    spg_run Hess beta k fuel st fs st2
    /\ spg_iter Hess beta k fuel st2 = Some (st', true).
Proof.
  induction n as [|n IH]; intros st st' H; [discriminate|].
  cbn [spg_loop] in H.
  destruct (spg_iter Hess beta k fuel st) as [[s b]|] eqn:E; [|discriminate].
  destruct b.
  - injection H as <-. exists [], st. split; [apply run_nil | exact E].
  - destruct (IH _ _ H) as (fs & st2 & Hrun & Hlast).
    exists ([f st] ++ fs), st2. split; [|exact Hlast].
    eapply spg_run_app; [|exact Hrun].
    apply (run_step (run_nil Hess beta k fuel st) E).
Qed.

Lemma spg_iter_start_or_better Hess beta k fuel st0 st st' b :
  spg_iter Hess beta k fuel st = Some (st', b) ->
  ltb (f st) (fmin st) = false -> fhat st = fmin st ->
  start_or_better st0 st -> start_or_better st0 st'.
Proof.
  intros H Hinv Heq Hs. unfold start_or_better in *.
  destruct (spg_iter_best _ _ _ _ _ _ _ H Hinv Heq) as (_ & _ & Hup).
  destruct (ltb (f st') (fhat st)) eqn:Hb.
  - right. destruct Hup as [-> _].
    destruct Hs as [[_ <-]|Hlt]; [exact Hb|].
    eapply ltb_trans; eassumption.
  - destruct Hup as [-> ->]. exact Hs.
Qed.

Lemma spg_run_start_or_better Hess beta k fuel st0 fs st :
  spg_run Hess beta k fuel st0 fs st ->
  ltb (f st0) (fmin st0) = false -> fhat st0 = fmin st0 ->
  start_or_better st0 st.
Proof.
  intros Hrun Hinv Heq. induction Hrun as [|st0 fs st' st'' Hrun IH Hstep].
  - left. split; reflexivity.
  - destruct (spg_run_best _ _ _ _ _ _ _ Hrun Hinv Heq) as (Hinv' & Heq' & _).
    eapply spg_iter_start_or_better; eauto.
Qed.

(** What a solve hands back is the starting point with its objective
    value, or a point whose recorded value compares strictly below that
    value; the value handed back is never above the objective value of
    the last iterate. *)
Theorem HCLasso_start_or_better fuel G w a0 lambda k sc st :
  HCLasso fuel G w a0 lambda k sc = Some st ->
  ((ahat st = firstn k a0 /\ fhat st = f (init_state G w a0 lambda k sc))
   \/ ltb (fhat st) (f (init_state G w a0 lambda k sc)) = true)
  /\ ltb (f st) (fhat st) = false.
Proof.
  intros H. rewrite HCLasso_unfold in H.
  destruct (spg_loop_run _ _ _ _ _ _ _ H) as (fs & st2 & Hrun & Hlast).
  destruct (init_state_best G w a0 lambda k sc) as (Hi0 & He0 & _).
  destruct (spg_run_best _ _ _ _ _ _ _ Hrun Hi0 He0) as (Hi2 & He2 & _).
  pose proof (spg_run_start_or_better _ _ _ _ _ _ _ Hrun Hi0 He0) as Hs2.
  pose proof (spg_iter_start_or_better _ _ _ _ _ _ _ _ Hlast Hi2 He2 Hs2) as Hs.
  destruct (spg_iter_best _ _ _ _ _ _ _ Hlast Hi2 He2) as (Hi & He & _).
  split; [|rewrite He; exact Hi].
  assert (Ea : ahat (init_state G w a0 lambda k sc) = firstn k a0).
  { unfold init_state. destruct (SetInput G w lambda k).
    unfold ObjValue, dcopy. cbn [ahat].
    rewrite firstn_firstn, Nat.min_id. reflexivity. }
  assert (Ef : fhat (init_state G w a0 lambda k sc)
               = f (init_state G w a0 lambda k sc)).
  { unfold init_state. destruct (SetInput G w lambda k).
    unfold ObjValue. reflexivity. }
  rewrite <- Ea, <- Ef. exact Hs.
Qed.

Lemma HCLasso_start_or_better_witness :
  let st := state_after
              (option_map (fun s => (s, true))
                 (HCLasso 5 [one] [pow2 (-2)] [zero] zero 1 empty_scratch))
              (init_state [one] [pow2 (-2)] [zero] zero 1 empty_scratch) in
  ((ahat st = firstn 1 [zero]
    /\ fhat st = f (init_state [one] [pow2 (-2)] [zero] zero 1 empty_scratch))
   \/ ltb (fhat st)
          (f (init_state [one] [pow2 (-2)] [zero] zero 1 empty_scratch)) = true)
  /\ ltb (f st) (fhat st) = false.
Proof.
  intros st.
  apply (HCLasso_start_or_better 5 [one] [pow2 (-2)] [zero] zero 1
           empty_scratch st).
  vm_compute. reflexivity.
Defined.

(** ** The shape of the output and the isolation of the columns *)

Lemma RHLasso_returned fuel heap G W A lambda r :
  nrow W * nrow W <= length (data G) ->
  nrow W * ncol W <= length (data W) ->
  nrow W * ncol W <= length (data A) ->
  RHLasso fuel all_allocated heap G W A lambda = Returned r ->
  exists rs,
    collect (map (solve_column fuel (data G) (data W) (data A) lambda (nrow W))
                 (seq 0 (ncol W))) = Some rs
    /\ r = mkResult (mkMatrix (nrow W) (ncol W) (concat (map fst rs)))
                    (mkMatrix 1 1 [fold_left add (map snd rs) zero]).
Proof.
  intros HG HW HA. unfold RHLasso, spawn_threads.
  change (memory_check all_allocated) with (@None error).
  change (any_null all_allocated) with false.
  set (k := nrow W) in *. set (d := ncol W) in *.
  pose proof (solve_columns_spec fuel (data G) (data W) (data A) lambda k d
                (repeat zero (k * d)) HG HW HA d 0 heap [] zero
                eq_refl eq_refl) as Hs.
  change ([] ++ skipn (0 * k) (repeat zero (k * d)))
    with (repeat zero (k * d)) in Hs.
  rewrite skipn_all2 in Hs by (rewrite repeat_length; lia).
  destruct d as [|d'].
  - cbn. rewrite Nat.mul_0_r. intros H. injection H as <-.
    exists []. split; reflexivity.
  - cbv iota.
    destruct (solve_columns fuel (data G) (data W) (data A) lambda k (S d')
                0 heap (repeat zero (k * S d')) zero) as [[[an lo] s]|];
      destruct (collect (map (solve_column fuel (data G) (data W) (data A)
                                           lambda k) (seq 0 (S d'))))
        as [rs|]; cbn [outputs option_map fst snd] in Hs;
      try discriminate.
    injection Hs as -> ->. rewrite app_nil_r.
    intros H. injection H as <-. exists rs. split; reflexivity.
Qed.

Lemma collect_lengths fuel G W A lambda k d rs :
  k * k <= length G -> k * d <= length W -> k * d <= length A ->
  collect (map (solve_column fuel G W A lambda k) (seq 0 d)) = Some rs ->
  Forall (fun l : vec => length l = k) (map fst rs).
Proof.
  intros HG HW HA Hc.
  destruct (collect_nth _ _ _ _ _ _ _ _ Hc) as (Hl & Hn).
  apply Forall_nth. intros i dflt Hi. rewrite length_map in Hi.
  rewrite nth_indep with (d' := fst ((@nil double, zero) : vec * double))
    by (rewrite length_map; exact Hi).
  rewrite map_nth.
  destruct (nth i rs ([], zero)) as [a fh] eqn:En.
  apply (solve_column_length fuel G W A lambda k d i a fh HG HW HA); [lia|].
  rewrite <- En. apply Hn. lia.
Qed.

Lemma concat_length_uniform (k : nat) (ls : list vec) :
  Forall (fun l => length l = k) ls -> length (concat ls) = k * length ls.
Proof.
  induction 1 as [|l ls Hl _ IH]; [cbn; lia|].
  cbn [concat length]. rewrite length_app, IH, Hl. lia.
Qed.

(** With input buffers of the sizes that [W] announces, the matrix
    handed back has the rows and columns of [W] and holds one entry for
    each of its cells, and the loss is a matrix of one cell. *)
Theorem RHLasso_output_shape fuel heap G W A lambda r :
  nrow W * nrow W <= length (data G) ->
  nrow W * ncol W <= length (data W) ->
  nrow W * ncol W <= length (data A) ->
  RHLasso fuel all_allocated heap G W A lambda = Returned r ->
  nrow (res_A r) = nrow W /\ ncol (res_A r) = ncol W
  /\ length (data (res_A r)) = nrow W * ncol W
  /\ nrow (res_Loss r) = 1 /\ ncol (res_Loss r) = 1
  /\ length (data (res_Loss r)) = 1.
Proof.
  intros HG HW HA Hr.
  destruct (RHLasso_returned _ _ _ _ _ _ _ HG HW HA Hr) as (rs & Hc & ->).
  cbn [res_A res_Loss nrow ncol data length]. repeat split.
  rewrite (concat_length_uniform (nrow W)).
  - rewrite length_map. f_equal.
    apply (collect_nth _ _ _ _ _ _ _ _ Hc).
  - exact (collect_lengths _ _ _ _ _ _ _ _ HG HW HA Hc).
Qed.

Lemma RHLasso_output_shape_witness :
  let r := mkResult (mkMatrix 1 2 [pow2 (-2); one])
                    (mkMatrix 1 1 [opp (add (pow2 (-4)) (of_Z 3))]) in
  nrow (res_A r) = 1 /\ ncol (res_A r) = 2
  /\ length (data (res_A r)) = 1 * 2
  /\ nrow (res_Loss r) = 1 /\ ncol (res_Loss r) = 1
  /\ length (data (res_Loss r)) = 1.
Proof.
  intros r.
  apply (RHLasso_output_shape 30 empty_scratch (mkMatrix 1 1 [one])
           (mkMatrix 1 2 [pow2 (-2); two]) (mkMatrix 1 2 [zero; half]) zero r);
    [cbn; lia | cbn; lia | cbn; lia | vm_compute; reflexivity].
Defined.

Lemma HCLasso_column fuel (G w w' a0 a0' : vec) lambda k sc :
  firstn k w = firstn k w' -> firstn k a0 = firstn k a0' ->
  HCLasso fuel G w a0 lambda k sc = HCLasso fuel G w' a0' lambda k sc.
Proof.
  intros Hw Ha.
  rewrite (HCLasso_prefix fuel G G w a0 a0' lambda k sc eq_refl Ha).
  unfold HCLasso, init_state, SetInput. rewrite Hw. reflexivity.
Qed.

(** Column [j] of the output depends on column [j] of [W] and of [A]
    only, besides [G] and [lambda]: two batches of the same size that
    agree on these have the same column [j] in what they return,
    whatever their other columns and their scratch memory hold. *)
Theorem column_isolation fuel heap heap' G W W' A A' lambda r r' j :
  nrow W' = nrow W -> ncol W' = ncol W ->
  nrow W * nrow W <= length (data G) ->
  nrow W * ncol W <= length (data W) ->
  nrow W * ncol W <= length (data A) ->
  nrow W * ncol W <= length (data W') ->
  nrow W * ncol W <= length (data A') ->
  RHLasso fuel all_allocated heap G W A lambda = Returned r ->
  RHLasso fuel all_allocated heap' G W' A' lambda = Returned r' ->
  j < ncol W ->
  col (nrow W) j (data W) = col (nrow W) j (data W') ->
  col (nrow W) j (data A) = col (nrow W) j (data A') ->
  col (nrow W) j (data (res_A r)) = col (nrow W) j (data (res_A r')).
Proof.
  intros Hk Hd HG HW HA HW' HA' Hr Hr' Hj Ecw Eca.
  destruct (RHLasso_returned _ _ _ _ _ _ _ HG HW HA Hr) as (rs & Hc & ->).
  assert (HG2 : nrow W' * nrow W' <= length (data G)) by (rewrite Hk; exact HG).
  assert (HW2 : nrow W' * ncol W' <= length (data W'))
    by (rewrite Hk, Hd; exact HW').
  assert (HA2 : nrow W' * ncol W' <= length (data A'))
    by (rewrite Hk, Hd; exact HA').
  destruct (RHLasso_returned _ _ _ _ _ _ _ HG2 HW2 HA2 Hr')
    as (rs' & Hc' & ->).
  clear HG2 HW2 HA2. rewrite Hk, Hd in Hc'. cbn [res_A data].
  destruct (collect_nth _ _ _ _ _ _ _ _ Hc) as (Hl & Hn).
  destruct (collect_nth _ _ _ _ _ _ _ _ Hc') as (Hl' & Hn').
  rewrite (col_concat (nrow W) (map fst rs)
             (collect_lengths _ _ _ _ _ _ _ _ HG HW HA Hc))
    by (rewrite length_map; lia).
  rewrite (col_concat (nrow W) (map fst rs')
             (collect_lengths _ _ _ _ _ _ _ _ HG HW' HA' Hc'))
    by (rewrite length_map; lia).
  change (@nil double) with (fst ((@nil double, zero) : vec * double)).
  rewrite !map_nth. f_equal.
  assert (E : solve_column fuel (data G) (data W) (data A) lambda (nrow W) j
              = solve_column fuel (data G) (data W') (data A') lambda (nrow W) j).
  { unfold solve_column. f_equal. apply HCLasso_column; assumption. }
  rewrite (Hn j Hj), (Hn' j Hj) in E. congruence.
Qed.

Lemma column_isolation_witness :
  col 1 1 [pow2 (-2); one] = col 1 1 [one; one].
Proof.
  apply (column_isolation 30 empty_scratch (mkScratch [one] [] [two] [])
           (mkMatrix 1 1 [one])
           (mkMatrix 1 2 [pow2 (-2); two]) (mkMatrix 1 2 [one; two])
           (mkMatrix 1 2 [zero; half]) (mkMatrix 1 2 [one; half]) zero
           (mkResult (mkMatrix 1 2 [pow2 (-2); one])
                     (mkMatrix 1 1 [opp (add (pow2 (-4)) (of_Z 3))]))
           (mkResult (mkMatrix 1 2 [one; one])
                     (mkMatrix 1 1 [opp (of_Z 4)]))
           1);
    [reflexivity | reflexivity | cbn; lia | cbn; lia | cbn; lia | cbn; lia
     | cbn; lia | vm_compute; reflexivity | vm_compute; reflexivity
     | cbn; lia | reflexivity | reflexivity].
Defined.

(** ** A stationary starting point *)

Lemma is_zero_no_descent (a : double) : is_zero a = true -> no_descent a = true.
Proof. destruct a as [s|s| |s m e]; try discriminate. destruct s; reflexivity. Qed.

Lemma dot_step_zero (acc gi di : double) :
  is_zero acc = true -> is_finite gi = true -> is_zero di = true ->
  is_zero (add acc (mul gi di)) = true.
Proof.
  destruct acc as [sa|sa| |sa ma ea]; try discriminate.
  destruct di as [sd|sd| |sd md ed]; try discriminate.
  destruct gi as [sg|sg| |sg mg eg]; try discriminate;
    destruct sa, sg, sd; reflexivity.
Qed.

Lemma Forall_firstn_vec (P : double -> Prop) (n : nat) (l : vec) :
  Forall P l -> Forall P (firstn n l).
Proof.
  intros H. revert n. induction H as [|a l Ha _ IH]; intros [|n];
    cbn [firstn]; constructor; [exact Ha | apply IH].
Qed.

Lemma ddot_zero (n : nat) (gv dv : vec) :
  Forall (fun a => is_finite a = true) gv ->
  Forall (fun a => is_zero a = true) dv ->
  is_zero (ddot n gv dv) = true.
Proof.
  intros Hg Hd. unfold ddot.
  apply (Forall_firstn_vec _ n) in Hg. apply (Forall_firstn_vec _ n) in Hd.
  generalize dependent (firstn n dv). generalize (firstn n gv) Hg.
  intros l1 H1 l2 H2.
  assert (H : forall acc, is_zero acc = true ->
            is_zero (fold_left (fun a p => add a (mul (fst p) (snd p)))
                               (combine l1 l2) acc) = true);
    [|apply H; reflexivity].
  revert l2 H2. induction H1 as [|gi l1 Hgi _ IH]; intros l2 H2 acc Ha;
    [exact Ha|].
  destruct H2 as [|di l2 Hdi H2]; [exact Ha|].
  cbn [combine fold_left fst snd]. apply (IH l2 H2).
  apply dot_step_zero; assumption.
Qed.

(** A starting point at which the projected gradient step
    [Proj(x - g) - x] is zero in every coordinate, with a finite
    gradient, is stationary for the solver: the solve stops in its
    first iteration and hands the starting point back. *)
Theorem stationary_start_is_returned fuel G w a0 lambda k sc :
  Forall (fun a => is_finite a = true) (g (init_state G w a0 lambda k sc)) ->
  Forall (fun a => is_zero a = true)
         (GetProjStep (x (init_state G w a0 lambda k sc))
                      (g (init_state G w a0 lambda k sc)) one k) ->
  exists st,
    HCLasso (S fuel) G w a0 lambda k sc = Some st
    /\ ahat st = firstn k a0
    /\ fhat st = f (init_state G w a0 lambda k sc)
    /\ iter st = 0.
Proof.
  intros Hg Hd.
  assert (Hnd : no_descent
                  (dir_gtd (compute_direction k (init_state G w a0 lambda k sc)))
                = true).
  { apply is_zero_no_descent.
    assert (Hi : iter (init_state G w a0 lambda k sc) = 0)
      by apply init_state_best.
    unfold compute_direction, select_alpha. rewrite Hi. cbn [Nat.eqb dir_gtd].
    unfold GetDirectDerivative. apply ddot_zero; assumption. }
  clear Hg Hd. rewrite HCLasso_unfold. cbn [spg_loop]. unfold spg_iter.
  rewrite Hnd. eexists. split; [reflexivity|].
  unfold init_state. destruct (SetInput G w lambda k) as [Hess beta].
  unfold ObjValue, dcopy. cbn [with_tmp ahat fhat f iter].
  rewrite firstn_firstn, Nat.min_id. repeat split.
Qed.

Lemma stationary_start_is_returned_witness :
  exists st,
    HCLasso 1 [one] [two] [one] zero 1 empty_scratch = Some st
    /\ ahat st = firstn 1 [one]
    /\ fhat st = f (init_state [one] [two] [one] zero 1 empty_scratch)
    /\ iter st = 0.
Proof.
  apply (stationary_start_is_returned 0 [one] [two] [one] zero 1 empty_scratch).
  - vm_compute. repeat constructor.
  - vm_compute. repeat constructor.
Defined.

(** ** A failed line search and the best pair *)

Lemma ltb_add_zero (a b : double) : ltb (add a zero) b = ltb a b.
Proof.
  destruct a as [s|s| |s m e]; try reflexivity.
  destruct s, b as [sb|sb| |sb mb eb]; reflexivity.
Qed.

(** When the line search of an iteration gives up, the iteration leaves
    the loop with the iterate and the best pair [ahat], [fhat] that it
    found on entry: what the solve then hands back was stored before. *)
Theorem exhausted_search_keeps_best
    G w a0 lambda k sc Hess beta fuel fs st r :
  spg_run Hess beta k fuel (init_state G w a0 lambda k sc) fs st ->
  no_descent (dir_gtd (compute_direction k st)) = false ->
  run_search fuel st (prepare_search Hess k st (compute_direction k st))
  = Some r ->
  ls_failed r = true ->
  exists st',
    spg_iter Hess beta k fuel st = Some (st', true)
    /\ x st' = x st /\ ahat st' = ahat st /\ fhat st' = fhat st.
Proof.
  intros Hrun Hnd Hls Hfail.
  destruct (init_state_best G w a0 lambda k sc) as (Hi0 & He0 & _).
  destruct (spg_run_best _ _ _ _ _ _ _ Hrun Hi0 He0) as (Hinv & Heq & _).
  pose proof Hls as Hls'. unfold run_search in Hls'.
  destruct (line_search_spec _ _ _ _ _ _ _ _ _ Hls')
    as (n & _ & _ & [(_ & _ & ->)|(_ & _ & ->)]); [discriminate Hfail|].
  clear Hls'. unfold spg_iter. rewrite Hnd, Hls.
  eexists. split.
  - f_equal. f_equal. unfold check_convergence.
    change (stop_step (mkLs zero zero zero (halved one n) true)) with true.
    rewrite orb_true_r. reflexivity.
  - unfold take_step, with_tmp.
    cbn [x ahat fhat f fmin ls_t ls_red_f].
    rewrite daxpy_zero, ltb_add_zero, Hinv. repeat split.
Qed.

Lemma exhausted_search_keeps_best_witness :
  let G := [pow2 20] in
  let w := [sub (pow2 19) (pow2 (-11))] in
  let st0 := init_state G w [half] zero 1 empty_scratch in
  exists st',
    spg_iter (fst (SetInput G w zero 1)) (snd (SetInput G w zero 1)) 1 30 st0
    = Some (st', true)
    /\ x st' = x st0 /\ ahat st' = ahat st0 /\ fhat st' = fhat st0.
Proof.
  intros G w st0.
  apply (exhausted_search_keeps_best G w [half] zero 1 empty_scratch
           (fst (SetInput G w zero 1)) (snd (SetInput G w zero 1)) 30 [] st0
           (mkLs zero zero zero (pow2 (-24)) true)).
  - apply run_nil.
  - vm_compute. reflexivity.
  - vm_compute. reflexivity.
  - reflexivity.
Defined.

(** ** [SetInput] *)

Lemma digits2_shift52 (m : positive) :
  Zpos (digits2_pos (Pos.mul 4503599627370496 m))
  = (Zpos (digits2_pos m) + 52)%Z.
Proof. cbn [Pos.mul digits2_pos]. lia. Qed.

(** The product of [1.0] and a well-formed value is that value. *)
Lemma mul_one_l (a : double) : valid a = true -> mul one a = a.
Proof.
  unfold valid.
  destruct a as [s|s| |s m e]; try reflexivity.
  intros Hv. cbn [valid_binary] in Hv. unfold bounded in Hv.
  apply andb_prop in Hv as [Hc Hb].
  unfold canonical_mantissa in Hc. apply Z.eqb_eq in Hc.
  unfold mul, SFmul, one.
  change (of_Z 1) with (S754_finite false 4503599627370496 (-52)).
  cbv iota beta. change (xorb false s) with s.
  unfold binary_round_aux, shr_fexp.
  cbn [Zdigits2]. rewrite digits2_shift52.
  replace (Z.add (Z.add (Zpos (digits2_pos m)) 52) (Z.add (-52) e))
    with (Z.add (Zpos (digits2_pos m)) e) by lia.
  rewrite Hc.
  replace (Z.sub e (Z.add (-52) e)) with 52%Z by lia.
  assert (Hshr : shr (shr_record_of_loc (Zpos (Pos.mul 4503599627370496 m))
                        loc_Exact) (Z.add (-52) e) 52
                 = (Build_shr_record (Zpos m) false false, e)).
  { unfold shr. f_equal; try reflexivity; lia. }
  rewrite Hshr. cbv iota beta.
  cbn [shr_m loc_of_shr_record round_nearest_even Zdigits2].
  rewrite Hc, Z.sub_diag. cbn [shr shr_record_of_loc shr_m].
  rewrite Hb. reflexivity.
Qed.

Lemma double_entries (l : vec) :
  Forall (fun a => valid a = true) l ->
  map (fun p => add (snd p) (mul one (fst p))) (combine l l)
  = map (fun a => add a a) l.
Proof.
  induction 1 as [|a l Ha _ IH]; [reflexivity|].
  cbn [combine map fst snd]. rewrite (mul_one_l a Ha), IH. reflexivity.
Qed.

(** [SetInput] leaves in [Hess] the first [k * k] entries of [G], each
    added to itself: twice the entry, rounded once, which is exact
    unless it overflows.  It leaves in [beta] the values
    [2 * w_i - lambda] for the first [k] entries of [w]. *)
Theorem SetInput_doubles G w lambda k :
  Forall (fun a => valid a = true) G ->
  fst (SetInput G w lambda k) = map (fun a => add a a) (firstn (k * k) G)
  /\ snd (SetInput G w lambda k)
     = map (fun wi => sub (mul two wi) lambda) (firstn k w).
Proof.
  intros HG. unfold SetInput, dcopy, daxpy. cbn [fst snd].
  split; [|reflexivity].
  change (eqb one zero) with false. rewrite orb_false_r.
  destruct (Nat.eqb (k * k) 0) eqn:E.
  - apply Nat.eqb_eq in E. rewrite E. reflexivity.
  - rewrite firstn_firstn, Nat.min_id.
    apply double_entries, Forall_firstn_vec, HG.
Qed.

Lemma SetInput_doubles_witness :
  fst (SetInput [one; half; half; of_Z 3] [one; two] half 2)
  = [two; one; one; of_Z 6].
Proof.
  rewrite (proj1 (SetInput_doubles [one; half; half; of_Z 3] [one; two] half 2
                    ltac:(repeat constructor))).
  vm_compute. reflexivity.
Defined.

(** ** An iterate that did not move *)

Lemma mul_mone_l (a : double) : valid a = true -> mul mone a = opp a.
Proof.
  unfold valid.
  destruct a as [s|s| |s m e]; try reflexivity.
  intros Hv. cbn [valid_binary] in Hv. unfold bounded in Hv.
  apply andb_prop in Hv as [Hc Hb].
  unfold canonical_mantissa in Hc. apply Z.eqb_eq in Hc.
  unfold mul, SFmul, mone, one.
  change (opp (of_Z 1)) with (S754_finite true 4503599627370496 (-52)).
  cbv iota beta. change (xorb true s) with (negb s).
  unfold binary_round_aux, shr_fexp.
  cbn [Zdigits2]. rewrite digits2_shift52.
  replace (Z.add (Z.add (Zpos (digits2_pos m)) 52) (Z.add (-52) e))
    with (Z.add (Zpos (digits2_pos m)) e) by lia.
  rewrite Hc.
  replace (Z.sub e (Z.add (-52) e)) with 52%Z by lia.
  assert (Hshr : shr (shr_record_of_loc (Zpos (Pos.mul 4503599627370496 m))
                        loc_Exact) (Z.add (-52) e) 52
                 = (Build_shr_record (Zpos m) false false, e)).
  { unfold shr. f_equal; try reflexivity; lia. }
  rewrite Hshr. cbv iota beta.
  cbn [shr_m loc_of_shr_record round_nearest_even Zdigits2].
  rewrite Hc, Z.sub_diag. cbn [shr shr_record_of_loc shr_m].
  rewrite Hb. reflexivity.
Qed.

Lemma add_opp_zero (a : double) :
  is_finite a = true -> is_zero (add a (opp a)) = true.
Proof.
  destruct a as [s|s| |s m e]; try discriminate; intros _.
  - destruct s; reflexivity.
  - unfold add, opp, SFadd, SFopp. rewrite Z.min_id.
    unfold shl_align. rewrite Z.sub_diag. cbn [fst].
    replace (Z.add (cond_Zopp s (Zpos m)) (cond_Zopp (negb s) (Zpos m)))
      with 0%Z by (destruct s; cbn [cond_Zopp negb]; lia).
    reflexivity.
Qed.

Lemma self_difference_zero (l : vec) :
  Forall (fun a => valid a = true /\ is_finite a = true) l ->
  Forall (fun a => is_zero a = true)
         (map (fun p => add (snd p) (mul mone (fst p))) (combine l l)).
Proof.
  induction 1 as [|a l [Hv Hf] _ IH]; [constructor|].
  cbn [combine map fst snd]. constructor; [|exact IH].
  rewrite (mul_mone_l a Hv). apply add_opp_zero, Hf.
Qed.

Lemma zero_is_finite (l : vec) :
  Forall (fun a => is_zero a = true) l -> Forall (fun a => is_finite a = true) l.
Proof.
  apply Forall_impl. intros a. destruct a; try discriminate. reflexivity.
Qed.

Lemma dot_step_zero_l (acc zi gi : double) :
  is_zero acc = true -> is_zero zi = true -> is_finite gi = true ->
  is_zero (add acc (mul zi gi)) = true.
Proof.
  destruct acc as [sa|sa| |sa ma ea]; try discriminate.
  destruct zi as [sd|sd| |sd md ed]; try discriminate.
  destruct gi as [sg|sg| |sg mg eg]; try discriminate;
    destruct sa, sg, sd; reflexivity.
Qed.

Lemma ddot_zero_l (n : nat) (zv gv : vec) :
  Forall (fun a => is_zero a = true) zv ->
  Forall (fun a => is_finite a = true) gv ->
  is_zero (ddot n zv gv) = true.
Proof.
  intros Hz Hg. unfold ddot.
  apply (Forall_firstn_vec _ n) in Hg. apply (Forall_firstn_vec _ n) in Hz.
  generalize dependent (firstn n gv). generalize (firstn n zv) Hz.
  intros l1 H1 l2 H2.
  assert (H : forall acc, is_zero acc = true ->
            is_zero (fold_left (fun a p => add a (mul (fst p) (snd p)))
                               (combine l1 l2) acc) = true);
    [|apply H; reflexivity].
  revert l2 H2. induction H1 as [|zi l1 Hzi _ IH]; intros l2 H2 acc Ha;
    [exact Ha|].
  destruct H2 as [|gi l2 Hgi H2]; [exact Ha|].
  cbn [combine fold_left fst snd]. apply (IH l2 H2).
  apply dot_step_zero_l; assumption.
Qed.

Lemma div_zero_zero (a b : double) :
  is_zero a = true -> is_zero b = true -> div a b = nan.
Proof. destruct a, b; try discriminate. reflexivity. Qed.

(** When the iterate did not move ([x_old] holds the same values as
    [x]) and the change of the gradient is finite, the Barzilai-Borwein
    quotient is [0 / 0], a NaN. *)
Theorem GetAlpha_unmoved (xv gv g_oldv : vec) (k : nat) :
  Forall (fun a => valid a = true /\ is_finite a = true) xv ->
  Forall (fun a => is_finite a = true) (daxpy k mone g_oldv (dcopy k gv)) ->
  fst (GetAlpha xv xv gv g_oldv k) = nan.
Proof.
  intros Hx Hdg. unfold GetAlpha. cbn [fst].
  assert (Hz : Forall (fun a => is_zero a = true)
                      (daxpy k mone xv (dcopy k xv))).
  { unfold daxpy, dcopy. change (eqb mone zero) with false.
    rewrite orb_false_r. destruct (Nat.eqb k 0) eqn:E.
    - apply Nat.eqb_eq in E. subst k. constructor.
    - rewrite firstn_firstn, Nat.min_id.
      apply self_difference_zero, Forall_firstn_vec, Hx. }
  apply div_zero_zero.
  - apply ddot_zero; [apply zero_is_finite, Hz | exact Hz].
  - apply ddot_zero_l; [exact Hz | exact Hdg].
Qed.

Lemma line_search_nan_step fuel fv f_ref Quad t factor :
  eqb t zero = false ->
  line_search fuel fv f_ref nan Quad nan t factor = None.
Proof.
  intros Ht. revert factor.
  induction fuel as [|fuel IH]; intros factor; [reflexivity|].
  cbn [line_search].
  assert (Hs : sufficient_descent fv f_ref nan Quad factor = false).
  { unfold sufficient_descent, trial_red_f, trial_linear.
    rewrite mul_nan_l, !add_nan_r. apply ltb_nan_l. }
  rewrite Hs. unfold step_too_small. rewrite mul_nan_l, ltb_nan_l, Ht.
  cbn [orb]. apply IH.
Qed.

Lemma all_nan_map_snd (h : double -> double) (l1 l2 : vec) :
  Forall (fun a => a = nan) l2 ->
  Forall (fun a => a = nan) (map (fun p => add (snd p) (h (fst p))) (combine l1 l2)).
Proof.
  intros H. revert l1. induction H as [|b l2 Hb _ IH]; intros [|a l1];
    cbn [combine map]; constructor; [|apply IH].
  cbn [snd]. rewrite Hb. reflexivity.
Qed.

Lemma all_nan_factor (gv dv : vec) :
  Forall (fun a => a = nan)
         (map (fun p => add (snd p) (mul nan (fst p))) (combine gv dv)).
Proof.
  revert dv. induction gv as [|a gv IH]; intros [|b dv];
    cbn [combine map]; constructor; [|apply IH].
  cbn [fst snd]. rewrite mul_nan_l. apply add_nan_r.
Qed.

Lemma all_nan_firstn (n : nat) (l : vec) :
  Forall (fun a => a = nan) l -> Forall (fun a => a = nan) (firstn n l).
Proof. apply Forall_firstn_vec. Qed.

Lemma clamp01_all_nan (l : vec) :
  Forall (fun a => a = nan) l -> Forall (fun a => a = nan) (map clamp01 l).
Proof.
  induction 1 as [|a l Ha _ IH]; cbn [map]; constructor; [|exact IH].
  rewrite Ha. reflexivity.
Qed.

(** The projected step for a NaN step length is NaN in every
    coordinate. *)
Lemma GetProjStep_nan (xv gv : vec) (k : nat) :
  0 < k -> Forall (fun a => a = nan) (GetProjStep xv gv nan k).
Proof.
  intros Hk. unfold GetProjStep, ProjHyperCube, dcopy, daxpy.
  change (eqb (opp nan) zero) with false. change (eqb mone zero) with false.
  change (opp nan) with nan.
  replace (Nat.eqb k 0) with false by (symmetry; apply Nat.eqb_neq; lia).
  cbn [orb]. apply all_nan_map_snd, all_nan_firstn, clamp01_all_nan.
  apply all_nan_firstn, all_nan_factor.
Qed.

Lemma fold_nan_acc (h : double -> double * double -> double) (l : list (double * double)) :
  (forall p, h nan p = nan) -> fold_left h l nan = nan.
Proof.
  intros Hh. induction l as [|p l IH]; [reflexivity|].
  cbn [fold_left]. rewrite Hh. exact IH.
Qed.

Lemma ddot_nan (n : nat) (gv dv : vec) :
  0 < n -> gv <> [] -> dv <> [] -> Forall (fun a => a = nan) dv ->
  ddot n gv dv = nan.
Proof.
  intros Hn Hg Hd Hall. unfold ddot.
  destruct n as [|n]; [lia|]. destruct gv as [|a gv]; [contradiction|].
  destruct Hall as [|b dv Hb _]; [contradiction|].
  cbn [firstn combine fold_left fst snd]. rewrite Hb, mul_nan_r, add_nan_r.
  apply fold_nan_acc. intros p. reflexivity.
Qed.

Lemma dasum_nan (n : nat) (dv : vec) :
  0 < n -> dv <> [] -> Forall (fun a => a = nan) dv -> dasum n dv = nan.
Proof.
  intros Hn Hd Hall. unfold dasum.
  destruct n as [|n]; [lia|].
  destruct Hall as [|b dv Hb _]; [contradiction|].
  cbn [firstn fold_left]. rewrite Hb. change (abs nan) with nan.
  rewrite add_nan_r.
  generalize (firstn n dv). intros l.
  induction l as [|c l IH]; [reflexivity|]. cbn [fold_left]. exact IH.
Qed.

(** After a step that did not move the iterate, the next iteration
    never comes to an end: its step length is [0 / 0], the projected
    step and all the ingredients of the line search are NaN, and the
    backtracking loop runs for ever. *)
Theorem unmoved_iterate_hangs Hess beta k fuel st :
  0 < k -> length (x st) = k -> length (g st) = k ->
  iter st <> 0 ->
  x_old st = x st ->
  Forall (fun a => valid a = true /\ is_finite a = true) (x st) ->
  Forall (fun a => is_finite a = true)
         (daxpy k mone (g_old st) (dcopy k (g st))) ->
  spg_iter Hess beta k fuel st = None.
Proof.
  intros Hk Hx Hg Hit Hold Hval Hdg.
  assert (Ha : select_alpha k st
               = (nan, snd (GetAlpha (x st) (x st) (g st) (g_old st) k))).
  { unfold select_alpha.
    replace (Nat.eqb (iter st) 0) with false
      by (symmetry; apply Nat.eqb_neq; exact Hit).
    rewrite Hold.
    pose proof (GetAlpha_unmoved (x st) (g st) (g_old st) k Hval Hdg) as E.
    destruct (GetAlpha (x st) (x st) (g st) (g_old st) k) as [a t0].
    cbn [fst snd] in *. rewrite E. reflexivity. }
  pose proof (GetProjStep_nan (x st) (g st) k Hk) as Hd.
  pose proof (GetProjStep_length (x st) (g st) nan k Hx Hg) as Hdl.
  assert (Hdne : GetProjStep (x st) (g st) nan k <> []).
  { intros E. rewrite E in Hdl. cbn in Hdl. lia. }
  assert (Hgne : g st <> []).
  { intros E. rewrite E in Hg. cbn in Hg. lia. }
  unfold spg_iter, compute_direction. rewrite Ha. cbn [dir_gtd].
  unfold GetDirectDerivative.
  rewrite (ddot_nan k (g st) _ Hk Hgne Hdne Hd).
  change (no_descent nan) with false. cbv iota.
  unfold run_search, prepare_search, initial_t.
  replace (Nat.eqb (iter st) 0) with false
    by (symmetry; apply Nat.eqb_neq; exact Hit).
  cbn [si_f_ref si_Linear si_Quad si_Norm1_dx si_t dir_gtd dir_d].
  unfold NormOne. rewrite (dasum_nan k _ Hk Hdne Hd), !mul_nan_r.
  rewrite line_search_nan_step by reflexivity. reflexivity.
Qed.

Lemma unmoved_iterate_hangs_witness :
  let Hess := fst (SetInput [one] [pow2 59] zero 1) in
  let beta := snd (SetInput [one] [pow2 59] zero 1) in
  let st0 := init_state [one] [pow2 59] [pow2 60] zero 1 empty_scratch in
  let st1 := state_after (spg_iter Hess beta 1 1 st0) st0 in
  spg_iter Hess beta 1 7 st1 = None.
Proof.
  intros Hess beta st0 st1.
  apply (unmoved_iterate_hangs Hess beta 1 7 st1);
    [lia | reflexivity | reflexivity | vm_compute; discriminate
     | vm_compute; reflexivity
     | vm_compute; repeat constructor
     | vm_compute; repeat constructor].
Defined.

(** ** Equal columns *)

(** Two columns of one batch that carry the same target and the same
    starting point come back equal: no subproblem sees what another one
    did. *)
Theorem equal_columns_equal_results fuel heap G W A lambda r i j :
  nrow W * nrow W <= length (data G) ->
  nrow W * ncol W <= length (data W) ->
  nrow W * ncol W <= length (data A) ->
  RHLasso fuel all_allocated heap G W A lambda = Returned r ->
  i < ncol W -> j < ncol W ->
  col (nrow W) i (data W) = col (nrow W) j (data W) ->
  col (nrow W) i (data A) = col (nrow W) j (data A) ->
  col (nrow W) i (data (res_A r)) = col (nrow W) j (data (res_A r)).
Proof.
  intros HG HW HA Hr Hi Hj Ecw Eca.
  destruct (RHLasso_returned _ _ _ _ _ _ _ HG HW HA Hr) as (rs & Hc & ->).
  cbn [res_A data].
  destruct (collect_nth _ _ _ _ _ _ _ _ Hc) as (Hl & Hn).
  rewrite !(col_concat (nrow W) (map fst rs)
              (collect_lengths _ _ _ _ _ _ _ _ HG HW HA Hc))
    by (rewrite length_map; lia).
  change (@nil double) with (fst ((@nil double, zero) : vec * double)).
  rewrite !map_nth. f_equal.
  assert (E : solve_column fuel (data G) (data W) (data A) lambda (nrow W) i
              = solve_column fuel (data G) (data W) (data A) lambda (nrow W) j).
  { unfold solve_column. f_equal. apply HCLasso_column; assumption. }
  rewrite (Hn i Hi), (Hn j Hj) in E. congruence.
Qed.

Lemma equal_columns_equal_results_witness :
  col 1 0 [pow2 (-2); one; pow2 (-2)] = col 1 2 [pow2 (-2); one; pow2 (-2)].
Proof.
  apply (equal_columns_equal_results 30 empty_scratch (mkMatrix 1 1 [one])
           (mkMatrix 1 3 [pow2 (-2); two; pow2 (-2)])
           (mkMatrix 1 3 [zero; half; zero]) zero
           (mkResult (mkMatrix 1 3 [pow2 (-2); one; pow2 (-2)])
                     (mkMatrix 1 1 [opp (add (pow2 (-3)) (of_Z 3))]))
           0 2);
    [cbn; lia | cbn; lia | cbn; lia | vm_compute; reflexivity
     | cbn; lia | cbn; lia | reflexivity | reflexivity].
Defined.

Lemma GetAlpha_unmoved_witness :
  fst (GetAlpha [pow2 60; half] [pow2 60; half] [one; two] [one; one] 2) = nan.
Proof.
  apply (GetAlpha_unmoved [pow2 60; half] [one; two] [one; one] 2).
  - repeat constructor.
  - vm_compute. repeat constructor.
Defined.
